(** * just-kick: proximity alerts, location polling and the item stores

    A shallow embedding of the core of the bucket-list tracker
    (src/utils/geoUtils.ts, src/types.ts, src/App.tsx, the LocalDatabase
    class of services/db and src/services/cloudService.ts), followed by
    the properties established about it.

    Conventions of the embedding:
    - a JavaScript [number] holding a coordinate or a distance is a real
      number ([R]); [Math.sin], [Math.cos], [Math.sqrt] are the functions
      of the Standard Library, [Math.atan2] is defined below from [atan].
      Rounding, NaN and infinities of IEEE doubles are outside the model;
    - timestamps ([Date.now()]) are integers ([Z]);
    - React state is a record, every handler is a function on that record;
      an [await] is taken as one step together with what follows it;
    - the IndexedDB object store and the Firestore collection are finite
      maps keyed by item id, the localStorage array of the mock cloud is a
      list. *)

From Stdlib Require Import Reals Lra ZArith Ascii String.
From stdpp Require Import base option list gmap strings sorting pretty.

#[local] Open Scope Z_scope.

(** ** src/types.ts *)

Record GeoLocation : Type := mkGeoLocation {
  lat : R;
  lng : R
}.

Record BucketItem : Type := mkBucketItem {
  id : string;
  title : string;
  description : option string;
  targetLocation : GeoLocation;
  completed : bool;
  completedAt : option Z;
  notified : bool;
  category : string;
  interest : string;
  createdAt : Z;
  userId : option string
}.

Record User : Type := mkUser {
  uid : string;
  email : option string
}.

(** ** src/utils/geoUtils.ts *)

Module Geo.
#[local] Open Scope R_scope.

(** [Math.atan2 y x] on real arguments. *)
Definition atan2 (y x : R) : R :=
  match total_order_T x 0 with
  | inright _ => atan (y / x)
  | inleft (left _) =>
      if Rlt_dec y 0 then atan (y / x) - PI else atan (y / x) + PI
  | inleft (right _) =>
      match total_order_T y 0 with
      | inright _ => PI / 2
      | inleft (left _) => - (PI / 2)
      | inleft (right _) => 0
      end
  end.

(** [calculateDistance]: Haversine distance in meters. *)
Definition calculateDistance (loc1 loc2 : GeoLocation) : R :=
  let R := 6371000 in
  let phi1 := (lat loc1 * PI) / 180 in
  let phi2 := (lat loc2 * PI) / 180 in
  let dphi := ((lat loc2 - lat loc1) * PI) / 180 in
  let dlambda := ((lng loc2 - lng loc1) * PI) / 180 in
  let a :=
    sin (dphi / 2) * sin (dphi / 2) +
    cos phi1 * cos phi2 * sin (dlambda / 2) * sin (dlambda / 2) in
  let c := 2 * atan2 (sqrt a) (sqrt (1 - a)) in
  R * c.

End Geo.

(** ** src/App.tsx: proximity evaluation *)

Definition PROXIMITY_THRESHOLD : R := 2000%R.

Inductive NotificationPermission : Type := granted | denied | default.

(** The arguments of [new Notification(title, {body, icon})]. *)
Record Notification : Type := mkNotification {
  heading : string;
  body : string;
  icon : string
}.

Definition dquote : string := String "034"%char EmptyString.

(** What [sendNotification] leaves behind: the items it was called with, in
    call order, and the notifications whose constructor returned. *)
Record AlertLog : Type := mkAlertLog {
  sendNotificationCalls : list BucketItem;
  shownNotifications : list Notification
}.

Definition noAlerts : AlertLog := mkAlertLog [] [].

Definition alertFor (item : BucketItem) : Notification :=
  {| heading := "You're close!";
     body := "You are near " +:+ dquote +:+ title item +:+ dquote +:+
             ". Time to check it off your bucket list!";
     icon := "https://cdn-icons-png.flaticon.com/512/854/854878.png" |}.

(** [sendNotification]. [perm] is the [permissionStatus] the closure sees;
    [throws n] tells whether the browser's constructor raises on [n] (the
    exception is caught and logged to the console). *)
Definition sendNotification (perm : NotificationPermission)
    (throws : Notification -> bool) (item : BucketItem) (log : AlertLog) : AlertLog :=
  let called := sendNotificationCalls log ++ [item] in
  match perm with
  | granted =>
      if throws (alertFor item)
      then mkAlertLog called (shownNotifications log)
      else mkAlertLog called (shownNotifications log ++ [alertFor item])
  | _ => mkAlertLog called (shownNotifications log)
  end.

Definition set_notified (b : bool) (item : BucketItem) : BucketItem :=
  {| id := id item; title := title item; description := description item;
     targetLocation := targetLocation item; completed := completed item;
     completedAt := completedAt item; notified := b;
     category := category item; interest := interest item;
     createdAt := createdAt item; userId := userId item |}.

(** [Array.prototype.map] with a callback that also updates variables of
    the enclosing scope: the callback is run on the elements from left to
    right and the scope is threaded through. *)
Fixpoint mapWith {S A B : Type} (f : A -> S -> B * S) (l : list A) (s : S)
    : list B * S :=
  match l with
  | [] => ([], s)
  | x :: l' =>
      let '(y, s1) := f x s in
      let '(ys, s2) := mapWith f l' s1 in
      (y :: ys, s2)
  end.

(** The callback of [prevItems.map] in [checkProximity]; the threaded scope
    is the local [hasChanges] and the effects of [sendNotification]. *)
Definition proximityCallback (perm : NotificationPermission)
    (throws : Notification -> bool) (currentLoc : GeoLocation)
    (item : BucketItem) (scope : bool * AlertLog) : BucketItem * (bool * AlertLog) :=
  if completed item || notified item then (item, scope)
  else
    let dist := Geo.calculateDistance currentLoc (targetLocation item) in
    if Rlt_dec dist PROXIMITY_THRESHOLD
    then (set_notified true item, (true, sendNotification perm throws item (snd scope)))
    else (item, scope).

(** The updater that [checkProximity] hands to [setItems]. *)
Definition proximityUpdater (perm : NotificationPermission)
    (throws : Notification -> bool) (currentLoc : GeoLocation)
    (prevItems : list BucketItem) (log : AlertLog) : list BucketItem * AlertLog :=
  let '(newItems, (hasChanges, log')) :=
    mapWith (proximityCallback perm throws currentLoc) prevItems (false, log) in
  (if hasChanges then newItems else prevItems, log').

(** ** services/db: the LocalDatabase class

    The object store [items] of IndexedDB, keyed by the [id] of the item.
    Storage failures ([request.onerror]) are outside the model. [getAll]
    returns the entries by ascending key; here they come in the order of the
    map, which need not be that one. The callers sort what they get by
    [createdAt]. *)

Module LocalDatabase.

Definition getAllItems (db : gmap string BucketItem) : list BucketItem :=
  (map_to_list db).*2.

(** [store.put(item)] *)
Definition saveItem (item : BucketItem) (db : gmap string BucketItem)
    : gmap string BucketItem :=
  <[id item := item]> db.

(** [store.delete(id)] *)
Definition deleteItem (itemId : string) (db : gmap string BucketItem)
    : gmap string BucketItem :=
  delete itemId db.

End LocalDatabase.

(** ** src/services/cloudService.ts *)

Definition set_userId (u : option string) (item : BucketItem) : BucketItem :=
  {| id := id item; title := title item; description := description item;
     targetLocation := targetLocation item; completed := completed item;
     completedAt := completedAt item; notified := notified item;
     category := category item; interest := interest item;
     createdAt := createdAt item; userId := u |}.

(** The mock backend keeps one array per user in localStorage, under the
    key [cloud_mock_<userId>_items]; the storage is a map from the user id
    to that array. The artificial latency is left out. *)
Module MockCloudService.

Definition getMockItems (userId : string) (ls : gmap string (list BucketItem))
    : list BucketItem :=
  match ls !! userId with
  | Some raw => raw
  | None => []
  end.

Definition saveMockItems (userId : string) (its : list BucketItem)
    (ls : gmap string (list BucketItem)) : gmap string (list BucketItem) :=
  <[userId := its]> ls.

Definition addItem (userId : string) (item : BucketItem)
    (ls : gmap string (list BucketItem)) : gmap string (list BucketItem) :=
  let its := getMockItems userId ls in
  saveMockItems userId (set_userId (Some userId) item :: its) ls.

Definition updateItem (userId : string) (item : BucketItem)
    (ls : gmap string (list BucketItem)) : gmap string (list BucketItem) :=
  let its := getMockItems userId ls in
  let its := map (fun i => if decide (id i = id item) then item else i) its in
  saveMockItems userId its ls.

Definition deleteItem (userId : string) (itemId : string)
    (ls : gmap string (list BucketItem)) : gmap string (list BucketItem) :=
  let its := getMockItems userId ls in
  let its := filter (fun i => id i <> itemId) its in
  saveMockItems userId its ls.

(** What the [load] of [subscribeToItems] passes to its callback. *)
Definition load (userId : string) (ls : gmap string (list BucketItem))
    : list BucketItem :=
  getMockItems userId ls.

End MockCloudService.

(** The Firestore collection [bucketItems], keyed by document id. Firestore
    is a library outside the repository: [setDoc] writes the whole document,
    [updateDoc] fails on a missing document and otherwise overwrites the
    fields it is given, [deleteDoc] removes the document if there is one. *)
Module FirebaseCloudService.

Definition mergeFields (old new : BucketItem) : BucketItem :=
  {| id := id new; title := title new;
     description := match description new with Some d => Some d | None => description old end;
     targetLocation := targetLocation new; completed := completed new;
     completedAt := match completedAt new with Some t => Some t | None => completedAt old end;
     notified := notified new; category := category new;
     interest := interest new; createdAt := createdAt new;
     userId := match userId new with Some u => Some u | None => userId old end |}.

Definition addItem (userId : string) (item : BucketItem)
    (col : gmap string BucketItem) : gmap string BucketItem :=
  <[id item := set_userId (Some userId) item]> col.

Definition updateItem (userId : string) (item : BucketItem)
    (col : gmap string BucketItem) : option (gmap string BucketItem) :=
  match col !! id item with
  | Some old => Some (<[id item := mergeFields old item]> col)
  | None => None
  end.

Definition deleteItem (userId : string) (itemId : string)
    (col : gmap string BucketItem) : gmap string BucketItem :=
  delete itemId col.

End FirebaseCloudService.

(** ** src/App.tsx: the component state and its surroundings *)

(** One call of [navigator.geolocation.getCurrentPosition] that has not
    called back yet: its options, and the [isLowAccuracy] argument its error
    callback passes to [handleError]. [maximumAge = None] is [Infinity]. *)
Record GeoRequest : Type := mkGeoRequest {
  enableHighAccuracy : bool;
  timeout : Z;
  maximumAge : option Z;
  isLowAccuracy : bool
}.

Inductive ImportMsgType : Type := success | error.

(** The state of the component ([useState]), the [importMsg] of the
    settings dialog, and what the handlers reach outside React: the
    geolocation service with its outstanding requests, the interval timer
    of the polling effect, the notifications, and the two stores.
    [closurePermission] is the [permissionStatus] that [sendNotification]
    reads when it runs from [updateLocation], a callback memoised with an
    empty dependency list. The cloud service is the mock one, which the
    configuration in the repository (empty [apiKey]) selects. *)
Record App : Type := mkApp {
  user : option User;
  items : list BucketItem;
  currentLocation : option GeoLocation;
  customBuckets : list string;
  customInterests : list string;
  isTracking : bool;
  editingItem : option BucketItem;
  permissionStatus : NotificationPermission;
  geoError : option string;
  importMsg : option (ImportMsgType * string);
  geolocationSupported : bool;
  pollingTimer : bool;
  pendingRequests : list GeoRequest;
  closurePermission : NotificationPermission;
  notificationThrows : Notification -> bool;
  alerts : AlertLog;
  localDB : gmap string BucketItem;
  mockStorage : gmap string (list BucketItem)
}.


Definition set_items (v : list BucketItem) (s : App) : App :=
  mkApp (user s) v (currentLocation s) (customBuckets s) (customInterests s)
    (isTracking s) (editingItem s) (permissionStatus s) (geoError s)
    (importMsg s) (geolocationSupported s) (pollingTimer s) (pendingRequests
    s) (closurePermission s) (notificationThrows s) (alerts s) (localDB s)
    (mockStorage s).

Definition set_currentLocation (v : option GeoLocation) (s : App) : App :=
  mkApp (user s) (items s) v (customBuckets s) (customInterests s)
    (isTracking s) (editingItem s) (permissionStatus s) (geoError s)
    (importMsg s) (geolocationSupported s) (pollingTimer s) (pendingRequests
    s) (closurePermission s) (notificationThrows s) (alerts s) (localDB s)
    (mockStorage s).

Definition set_customBuckets (v : list string) (s : App) : App :=
  mkApp (user s) (items s) (currentLocation s) v (customInterests s)
    (isTracking s) (editingItem s) (permissionStatus s) (geoError s)
    (importMsg s) (geolocationSupported s) (pollingTimer s) (pendingRequests
    s) (closurePermission s) (notificationThrows s) (alerts s) (localDB s)
    (mockStorage s).

Definition set_customInterests (v : list string) (s : App) : App :=
  mkApp (user s) (items s) (currentLocation s) (customBuckets s) v
    (isTracking s) (editingItem s) (permissionStatus s) (geoError s)
    (importMsg s) (geolocationSupported s) (pollingTimer s) (pendingRequests
    s) (closurePermission s) (notificationThrows s) (alerts s) (localDB s)
    (mockStorage s).

Definition set_isTracking (v : bool) (s : App) : App :=
  mkApp (user s) (items s) (currentLocation s) (customBuckets s)
    (customInterests s) v (editingItem s) (permissionStatus s) (geoError s)
    (importMsg s) (geolocationSupported s) (pollingTimer s) (pendingRequests
    s) (closurePermission s) (notificationThrows s) (alerts s) (localDB s)
    (mockStorage s).

Definition set_editingItem (v : option BucketItem) (s : App) : App :=
  mkApp (user s) (items s) (currentLocation s) (customBuckets s)
    (customInterests s) (isTracking s) v (permissionStatus s) (geoError s)
    (importMsg s) (geolocationSupported s) (pollingTimer s) (pendingRequests
    s) (closurePermission s) (notificationThrows s) (alerts s) (localDB s)
    (mockStorage s).

Definition set_permissionStatus (v : NotificationPermission) (s : App) : App :=
  mkApp (user s) (items s) (currentLocation s) (customBuckets s)
    (customInterests s) (isTracking s) (editingItem s) v (geoError s)
    (importMsg s) (geolocationSupported s) (pollingTimer s) (pendingRequests
    s) (closurePermission s) (notificationThrows s) (alerts s) (localDB s)
    (mockStorage s).

Definition set_geoError (v : option string) (s : App) : App :=
  mkApp (user s) (items s) (currentLocation s) (customBuckets s)
    (customInterests s) (isTracking s) (editingItem s) (permissionStatus s)
    v (importMsg s) (geolocationSupported s) (pollingTimer s)
    (pendingRequests s) (closurePermission s) (notificationThrows s) (alerts
    s) (localDB s) (mockStorage s).

Definition set_importMsg (v : option (ImportMsgType * string)) (s : App) : App :=
  mkApp (user s) (items s) (currentLocation s) (customBuckets s)
    (customInterests s) (isTracking s) (editingItem s) (permissionStatus s)
    (geoError s) v (geolocationSupported s) (pollingTimer s)
    (pendingRequests s) (closurePermission s) (notificationThrows s) (alerts
    s) (localDB s) (mockStorage s).

Definition set_pollingTimer (v : bool) (s : App) : App :=
  mkApp (user s) (items s) (currentLocation s) (customBuckets s)
    (customInterests s) (isTracking s) (editingItem s) (permissionStatus s)
    (geoError s) (importMsg s) (geolocationSupported s) v (pendingRequests
    s) (closurePermission s) (notificationThrows s) (alerts s) (localDB s)
    (mockStorage s).

Definition set_pendingRequests (v : list GeoRequest) (s : App) : App :=
  mkApp (user s) (items s) (currentLocation s) (customBuckets s)
    (customInterests s) (isTracking s) (editingItem s) (permissionStatus s)
    (geoError s) (importMsg s) (geolocationSupported s) (pollingTimer s) v
    (closurePermission s) (notificationThrows s) (alerts s) (localDB s)
    (mockStorage s).

Definition set_alerts (v : AlertLog) (s : App) : App :=
  mkApp (user s) (items s) (currentLocation s) (customBuckets s)
    (customInterests s) (isTracking s) (editingItem s) (permissionStatus s)
    (geoError s) (importMsg s) (geolocationSupported s) (pollingTimer s)
    (pendingRequests s) (closurePermission s) (notificationThrows s) v
    (localDB s) (mockStorage s).

Definition set_localDB (v : gmap string BucketItem) (s : App) : App :=
  mkApp (user s) (items s) (currentLocation s) (customBuckets s)
    (customInterests s) (isTracking s) (editingItem s) (permissionStatus s)
    (geoError s) (importMsg s) (geolocationSupported s) (pollingTimer s)
    (pendingRequests s) (closurePermission s) (notificationThrows s) (alerts
    s) v (mockStorage s).

Definition set_mockStorage (v : gmap string (list BucketItem)) (s : App) : App :=
  mkApp (user s) (items s) (currentLocation s) (customBuckets s)
    (customInterests s) (isTracking s) (editingItem s) (permissionStatus s)
    (geoError s) (importMsg s) (geolocationSupported s) (pollingTimer s)
    (pendingRequests s) (closurePermission s) (notificationThrows s) (alerts
    s) (localDB s) v.

(** *** Location tracking *)

Definition highAccuracyRequest : GeoRequest :=
  {| enableHighAccuracy := true; timeout := 30000; maximumAge := Some 60000;
     isLowAccuracy := false |}.

Definition lowAccuracyRequest : GeoRequest :=
  {| enableHighAccuracy := false; timeout := 30000; maximumAge := None;
     isLowAccuracy := true |}.

(** [getCurrentPosition] returns at once; the request stays outstanding
    until the service calls one of the two callbacks. *)
Definition getCurrentPosition (req : GeoRequest) (s : App) : App :=
  set_pendingRequests (pendingRequests s ++ [req]) s.

Definition checkProximity (currentLoc : GeoLocation) (s : App) : App :=
  let '(its, log) :=
    proximityUpdater (closurePermission s) (notificationThrows s) currentLoc
      (items s) (alerts s) in
  set_alerts log (set_items its s).

Definition handleSuccess (position : GeoLocation) (s : App) : App :=
  let s := set_geoError None s in
  let newLoc := {| lat := lat position; lng := lng position |} in
  let s := set_currentLocation (Some newLoc) s in
  checkProximity newLoc s.

(** [handleError]; of the error object only [code] is read. *)
Definition handleError (code : Z) (isLowAccuracy : bool) (s : App) : App :=
  if (code =? 3) && negb isLowAccuracy then
    getCurrentPosition lowAccuracyRequest s
  else
    let '(msg, s) :=
      match code with
      | 1 => ("Location permission denied. Please enable it in your browser settings.",
              set_isTracking false s)
      | 2 => ("Location information is unavailable.", s)
      | 3 => ("Location request timed out. Please check your signal or move to an open area.", s)
      | _ => ("Unable to retrieve location.", s)
      end in
    set_geoError (Some msg) s.

Definition updateLocation (s : App) : App :=
  if geolocationSupported s then getCurrentPosition highAccuracyRequest s
  else set_isTracking false
         (set_geoError (Some "Geolocation is not supported by your browser") s).

(** The polling effect, with dependency [isTracking]: when the value differs
    from the one of the previous render, the cleanup of the previous run
    clears the interval and the body runs again. [updateLocation] can switch
    tracking off at once (no geolocation service); the render that follows
    clears the interval that was just set. *)
Definition pollingEffect (prev : bool) (s : App) : App :=
  if Bool.eqb prev (isTracking s) then s
  else
    let s := set_pollingTimer false s in
    if isTracking s then
      let s := updateLocation s in
      let s := set_pollingTimer true s in
      if isTracking s then s else set_pollingTimer false s
    else s.

(** A handler followed by the render it causes. *)
Definition dispatch (handler : App -> App) (s : App) : App :=
  pollingEffect (isTracking s) (handler s).

(** [toggleTracking]; the answer to [requestNotificationPermission] arrives
    later, as an event of its own. *)
Definition toggleTracking (s : App) : App :=
  if isTracking s then set_geoError None (set_isTracking false s)
  else set_isTracking true s.

Inductive GeoResult : Type :=
| Position (coords : GeoLocation)
| PositionError (code : Z).

Inductive Event : Type :=
| ToggleTracking
| IntervalFires
| Resolves (n : nat) (r : GeoResult)
| DismissGeoError
| PermissionAnswered (p : NotificationPermission).

(** The callbacks of a request, as [updateLocation] and [handleError] pass
    them to [getCurrentPosition]. *)
Definition callback (req : GeoRequest) (r : GeoResult) (s : App) : App :=
  match r with
  | Position coords => handleSuccess coords s
  | PositionError code => handleError code (isLowAccuracy req) s
  end.

(** One event of the page. The interval only fires while it is set; the
    request that resolves is the [n]-th outstanding one and is outstanding
    no longer. *)
Definition step (e : Event) (s : App) : App :=
  match e with
  | ToggleTracking => dispatch toggleTracking s
  | IntervalFires => if pollingTimer s then dispatch updateLocation s else s
  | Resolves n r =>
      match pendingRequests s !! n with
      | Some req =>
          dispatch (callback req r)
            (set_pendingRequests (delete n (pendingRequests s)) s)
      | None => s
      end
  | DismissGeoError => set_geoError None s
  | PermissionAnswered p => set_permissionStatus p s
  end.

Definition run (es : list Event) (s : App) : App :=
  fold_left (fun s e => step e s) es s.

(** One sample attempt from start to end: the request of [updateLocation],
    its outcome [high], and the outcome [low] of the request that is
    outstanding afterwards, if there is one. Requests issued earlier and
    still outstanding keep their places [0 .. length - 1]. *)
Definition sampleAttempt (high low : GeoResult) (s : App) : App :=
  let n := length (pendingRequests s) in
  let s := dispatch updateLocation s in
  let s := step (Resolves n high) s in
  step (Resolves n low) s.

(** The outcome of a sample attempt as a whole. *)
Definition attemptResult (high low : GeoResult) : GeoResult :=
  match high with
  | Position _ => high
  | PositionError code => if code =? 3 then low else high
  end.

Definition errorMessage (code : Z) : string :=
  match code with
  | 1 => "Location permission denied. Please enable it in your browser settings."
  | 2 => "Location information is unavailable."
  | 3 => "Location request timed out. Please check your signal or move to an open area."
  | _ => "Unable to retrieve location."
  end.

(** *** CRUD handlers

    [crypto.randomUUID()] and [Date.now()] are arguments of the handlers. *)

Definition initiateEdit (item : BucketItem) (s : App) : App :=
  set_editingItem (Some item) s.

Definition edited (e : BucketItem) (title' category' interest' : string)
    (location : GeoLocation) (description' : option string) : BucketItem :=
  {| id := id e; title := title'; description := description';
     targetLocation := location; completed := completed e;
     completedAt := completedAt e; notified := notified e;
     category := category'; interest := interest';
     createdAt := createdAt e; userId := userId e |}.

Definition handleSaveItem (title' category' interest' : string)
    (location : GeoLocation) (description' : option string)
    (uuid : string) (now : Z) (s : App) : App :=
  match editingItem s with
  | Some e =>
      let updatedItem := edited e title' category' interest' location description' in
      let s :=
        match user s with
        | Some u =>
            set_mockStorage
              (MockCloudService.updateItem (uid u) updatedItem (mockStorage s)) s
        | None =>
            let s := set_localDB (LocalDatabase.saveItem updatedItem (localDB s)) s in
            set_items
              (map (fun item => if decide (id item = id e) then updatedItem else item)
                 (items s)) s
        end in
      set_editingItem None s
  | None =>
      let newItem :=
        {| id := uuid; title := title'; description := description';
           targetLocation := location; completed := false; completedAt := None;
           notified := false; category := category'; interest := interest';
           createdAt := now; userId := uid <$> user s |} in
      match user s with
      | Some u =>
          set_mockStorage
            (MockCloudService.addItem (uid u) newItem (mockStorage s)) s
      | None =>
          let s := set_localDB (LocalDatabase.saveItem newItem (localDB s)) s in
          set_items (newItem :: items s) s
      end
  end.

Definition toggled (item : BucketItem) (now : Z) : BucketItem :=
  let completed' := negb (completed item) in
  {| id := id item; title := title item; description := description item;
     targetLocation := targetLocation item; completed := completed';
     completedAt := if completed' then Some now else None;
     notified := notified item; category := category item;
     interest := interest item; createdAt := createdAt item;
     userId := userId item |}.

(** [toggleComplete] when nothing happens during its [await]. *)
Definition toggleComplete (itemId : string) (now : Z) (s : App) : App :=
  match find (fun i => bool_decide (id i = itemId)) (items s) with
  | None => s
  | Some item =>
      let updatedItem := toggled item now in
      match user s with
      | Some u =>
          set_mockStorage
            (MockCloudService.updateItem (uid u) updatedItem (mockStorage s)) s
      | None =>
          let s := set_localDB (LocalDatabase.saveItem updatedItem (localDB s)) s in
          set_items
            (map (fun i => if decide (id i = itemId) then updatedItem else i)
               (items s)) s
      end
  end.

(** [toggleComplete] as the page runs it. Up to its [await] the handler
    looks the item up in the list of the render it belongs to, builds the
    copy and hands it to the store; in local mode it goes on after the
    [await], in the state of that time, and puts the copy on the list. The
    first part returns the copy that the second part will write, if there is
    a second part. *)
Definition toggleComplete_request (itemId : string) (now : Z) (s : App)
    : App * option BucketItem :=
  match find (fun i => bool_decide (id i = itemId)) (items s) with
  | None => (s, None)
  | Some item =>
      let updatedItem := toggled item now in
      match user s with
      | Some u =>
          (set_mockStorage
             (MockCloudService.updateItem (uid u) updatedItem (mockStorage s)) s,
           None)
      | None =>
          (set_localDB (LocalDatabase.saveItem updatedItem (localDB s)) s,
           Some updatedItem)
      end
  end.

Definition toggleComplete_resume (itemId : string) (updatedItem : BucketItem)
    (s : App) : App :=
  set_items
    (map (fun i => if decide (id i = itemId) then updatedItem else i) (items s)) s.

(** The handler with what the page does during the [await]. *)
Definition toggleComplete_interleaved (itemId : string) (now : Z)
    (between : App -> App) (s : App) : App :=
  let '(s1, pending) := toggleComplete_request itemId now s in
  match pending with
  | Some updatedItem => toggleComplete_resume itemId updatedItem (between s1)
  | None => between s1
  end.

Definition deleteItem (itemId : string) (s : App) : App :=
  match user s with
  | Some u =>
      set_mockStorage
        (MockCloudService.deleteItem (uid u) itemId (mockStorage s)) s
  | None =>
      let s := set_localDB (LocalDatabase.deleteItem itemId (localDB s)) s in
      set_items (filter (fun item => id item <> itemId) (items s)) s
  end.

(** The comparator [(a, b) => b.createdAt - a.createdAt] puts [a] before
    [b] when [a] is not older than [b]. *)
Definition newerFirst (a b : BucketItem) : Prop := createdAt b <= createdAt a.

#[global] Instance newerFirst_dec (a b : BucketItem) : Decision (newerFirst a b).
Proof. unfold newerFirst. apply _. Defined.

(** [loadItems] of the data effect: in cloud mode the first delivery of the
    subscription, in local mode the content of the database, newest first.
    [Array.prototype.sort] is [merge_sort] here: the result is sorted by the
    comparator and holds the same items; items that the comparator does not
    tell apart may come out in another order than in the browser. *)
Definition loadItems (s : App) : App :=
  match user s with
  | Some u => set_items (MockCloudService.load (uid u) (mockStorage s)) s
  | None =>
      set_items (merge_sort newerFirst (LocalDatabase.getAllItems (localDB s))) s
  end.

(** The callback that the data effect hands to [subscribeToItems]; the mock
    runs it with the stored list when the subscription starts and every two
    seconds from then on. Without a user there is no subscription. *)
Definition cloudSnapshot (s : App) : App :=
  match user s with
  | Some u => set_items (MockCloudService.load (uid u) (mockStorage s)) s
  | None => s
  end.

(** *** Signing out *)



(** *** The displayed list *)

Inductive SortOption : Type := date | distance.


(** [item.completedAt || 0] *)
Definition completedAtOrZero (item : BucketItem) : Z :=
  match completedAt item with
  | Some t => t
  | None => 0
  end.

(** The comparator of [filtered.sort]: [a] may come before [b] when the
    comparator does not return a positive number. *)
Definition displayOrder (showCompletedOnly : bool) (sortBy : SortOption)
    (currentLocation : option GeoLocation) (a b : BucketItem) : Prop :=
  match sortBy, currentLocation with
  | distance, Some loc =>
      (Geo.calculateDistance loc (targetLocation a) <=
       Geo.calculateDistance loc (targetLocation b))%R
  | _, _ =>
      if showCompletedOnly
      then completedAtOrZero b <= completedAtOrZero a
      else createdAt b <= createdAt a
  end.

#[global] Instance displayOrder_dec c o l a b : Decision (displayOrder c o l a b).
Proof.
  unfold displayOrder. destruct o, l, c; try apply _; apply Rle_dec.
Defined.


(** *** Backup import *)

(** A field of the parsed document that the code tests with
    [Array.isArray]: an array of well-formed entries, or anything else
    (missing, null, a number, a string, an object). *)
Inductive JsField (A : Type) : Type :=
| IsArray (l : list A)
| NotArray.
Arguments IsArray {A} l.
Arguments NotArray {A}.

Module Backup.
Record BackupData : Type := mkBackupData {
  items : JsField BucketItem;
  customBuckets : JsField string;
  customInterests : JsField string;
  exportedAt : Z
}.
End Backup.

(** The file handed to [importBackup]: the reader fails, the text is not
    JSON, it parses to [null] (reading [data.items] raises), it parses to a
    value whose fields are as in [BackupData], every entry of an [items]
    array carrying an id, or it parses to a value whose [items] is an array
    that begins with the entries [good], each carrying an id, and goes on
    with an entry that has none. *)
Inductive BackupFile : Type :=
| Unreadable
| NotJson
| JsonNull
| Document (data : Backup.BackupData)
| MalformedItems (good : list BucketItem).

Inductive ImportError : Type :=
| ReaderError
| SyntaxError
| TypeError
| FormatError (message : string)
| DataError.

(** [LocalDatabase.importBackup]: the promise is rejected with an error or
    resolved with the document; the second component is the object store
    afterwards. *)
Definition importBackup (file : BackupFile) (db : gmap string BucketItem)
    : (ImportError + Backup.BackupData) * gmap string BucketItem :=
  match file with
  | Unreadable => (inl ReaderError, db)
  | NotJson => (inl SyntaxError, db)
  | JsonNull => (inl TypeError, db)
  | Document data =>
      match Backup.items data with
      | NotArray => (inl (FormatError "Invalid backup file format"), db)
      | IsArray its =>
          let cleared : gmap string BucketItem := ∅ in
          (inr data, fold_left (fun st item => <[id item := item]> st) its cleared)
      end
  | MalformedItems good =>
      (* [store.put] raises on the entry without id, after [store.clear()]
         and the puts of the entries before it; the transaction commits *)
      let cleared : gmap string BucketItem := ∅ in
      (inl DataError, fold_left (fun st item => <[id item := item]> st) good cleared)
  end.

(** [LocalDatabase.exportBackup]: the document that goes into the download,
    as [importBackup] reads it back. Writing a document with
    [JSON.stringify] and reading it with [JSON.parse] gives the document
    again: a field that is undefined is left out by the one and absent for
    the other. *)
Definition exportBackup (customBuckets customInterests : list string) (now : Z)
    (db : gmap string BucketItem) : BackupFile :=
  let its := LocalDatabase.getAllItems db in
  Document
    {| Backup.items := IsArray its;
       Backup.customBuckets := IsArray customBuckets;
       Backup.customInterests := IsArray customInterests;
       Backup.exportedAt := now |}.

Definition handleDataImport (data : Backup.BackupData) (s : App) : App :=
  let s := match Backup.items data with
           | IsArray its => set_items its s
           | NotArray => s
           end in
  let s := match Backup.customBuckets data with
           | IsArray l => set_customBuckets l s
           | NotArray => s
           end in
  match Backup.customInterests data with
  | IsArray l => set_customInterests l s
  | NotArray => s
  end.

Definition itemCount (f : JsField BucketItem) : nat :=
  match f with
  | IsArray l => length l
  | NotArray => 0
  end.

(** [handleFileChange] of the settings dialog, with [onImport] bound to
    [handleDataImport]. *)
Definition handleFileChange (file : BackupFile) (s : App) : App :=
  match importBackup file (localDB s) with
  | (inr data, db) =>
      let s := set_localDB db s in
      let s := handleDataImport data s in
      set_importMsg
        (Some (success,
               "Restored " +:+ pretty (itemCount (Backup.items data)) +:+
               " items successfully.")) s
  | (inl _, db) =>
      let s := set_localDB db s in
      set_importMsg (Some (error, "Invalid backup file.")) s
  end.

(** ** src/components/BucketCard.tsx: the nearby highlight *)

Module BucketCard.

Definition distance (item : BucketItem) (currentLocation : option GeoLocation)
    : option R :=
  match currentLocation with
  | Some loc => Some (Geo.calculateDistance loc (targetLocation item))
  | None => None
  end.

Definition isNearby (item : BucketItem) (currentLocation : option GeoLocation)
    : bool :=
  match distance item currentLocation with
  | Some d => if Rlt_dec d 2000 then true else false
  | None => false
  end.

End BucketCard.

(** ** A small scenario

    The state of the component when it mounts, and one place on the list. *)

Definition initialApp : App :=
  {| user := None; items := []; currentLocation := None;
     customBuckets := []; customInterests := []; isTracking := false;
     editingItem := None; permissionStatus := default; geoError := None;
     importMsg := None; geolocationSupported := true; pollingTimer := false;
     pendingRequests := []; closurePermission := default;
     notificationThrows := fun _ => false; alerts := noAlerts;
     localDB := ∅; mockStorage := ∅ |}.

Definition cafeLocation : GeoLocation := {| lat := 13; lng := 80 |}.

Definition cafe : BucketItem :=
  {| id := "b1e7"; title := "Nearby Coffee Spot";
     description := Some "Best brew in town.";
     targetLocation := cafeLocation; completed := false; completedAt := None;
     notified := false; category := "Food"; interest := "Chill";
     createdAt := 1700000000000; userId := None |}.

(** A second place, one degree of latitude to the north. *)
Definition parkLocation : GeoLocation := {| lat := 14; lng := 80 |}.

Definition park : BucketItem :=
  {| id := "c2d9"; title := "Local Park";
     description := Some "Great for morning walks.";
     targetLocation := parkLocation; completed := false; completedAt := None;
     notified := false; category := "Parks"; interest := "Chill";
     createdAt := 1700000005000; userId := None |}.

(** The local list with the cafe on it, in memory and in the database. *)
Definition cafeApp : App :=
  set_localDB (LocalDatabase.saveItem cafe ∅) (set_items [cafe] initialApp).

(** The same list for a signed-in user of the mock cloud. *)
Definition cloudUser : User := {| uid := "u1"; email := Some "mockuser@gmail.com" |}.

Definition cloudApp : App :=
  {| user := Some cloudUser; items := [set_userId (Some "u1") cafe];
     currentLocation := None; customBuckets := []; customInterests := [];
     isTracking := false; editingItem := None; permissionStatus := default;
     geoError := None; importMsg := None; geolocationSupported := true;
     pollingTimer := false; pendingRequests := []; closurePermission := default;
     notificationThrows := fun _ => false; alerts := noAlerts;
     localDB := ∅; mockStorage := MockCloudService.addItem "u1" cafe ∅ |}.

(** A browser without a geolocation service. *)
Definition noGeoApp : App :=
  {| user := None; items := [cafe]; currentLocation := None;
     customBuckets := []; customInterests := []; isTracking := false;
     editingItem := None; permissionStatus := default; geoError := None;
     importMsg := None; geolocationSupported := false; pollingTimer := false;
     pendingRequests := []; closurePermission := default;
     notificationThrows := fun _ => false; alerts := noAlerts;
     localDB := LocalDatabase.saveItem cafe ∅; mockStorage := ∅ |}.

(** ** Vocabulary of the statements *)

(** An item is due when it is neither completed nor notified and lies
    within the threshold of the sample. *)
Definition due (loc : GeoLocation) (item : BucketItem) : Prop :=
  completed item = false /\ notified item = false /\
  (Geo.calculateDistance loc (targetLocation item) < PROXIMITY_THRESHOLD)%R.

#[global] Instance due_dec loc item : Decision (due loc item).
Proof.
  unfold due.
  destruct (Rlt_dec (Geo.calculateDistance loc (targetLocation item))
              PROXIMITY_THRESHOLD); [| right; tauto].
  destruct (completed item); [right; intros [? _]; discriminate |].
  destruct (notified item); [right; intros (_ & ? & _); discriminate |].
  left; auto.
Defined.

Definition latched (loc : GeoLocation) (item : BucketItem) : BucketItem :=
  if decide (due loc item) then set_notified true item else item.

(** The invariant behind at-most-once delivery: ids are unique, no item was
    handed to [sendNotification] twice, every item that was is latched, and
    the alerts shown are among those asked for. *)
Definition alertedOnce (its : list BucketItem) (log : AlertLog) : Prop :=
  NoDup (id <$> its) /\
  NoDup (id <$> sendNotificationCalls log) /\
  (forall x, x ∈ its -> id x ∈ (id <$> sendNotificationCalls log) -> notified x = true) /\
  shownNotifications log `sublist_of` (alertFor <$> sendNotificationCalls log).

(** Memory and database are in step in local mode: the ids on the list are
    unique, every item of the list is stored under its id, the same up to
    the [notified] flag, and nothing else is stored. *)
Definition inStep (s : App) : Prop :=
  user s = None /\
  NoDup (id <$> items s) /\
  (forall x, x ∈ items s ->
     exists y, localDB s !! id x = Some y /\
               set_notified false y = set_notified false x) /\
  (forall k y, localDB s !! k = Some y -> k ∈ (id <$> items s)).

(** The object store has [keyPath: 'id']: an entry is stored under the id it
    carries. *)
Definition keyedById (db : gmap string BucketItem) : Prop :=
  forall k x, db !! k = Some x -> id x = k.

(** * Properties *)

Section DistanceEngine.
#[local] Open Scope R_scope.
Import Geo.

Lemma atan2_0_1 : atan2 0 1 = 0.
Proof.
  unfold atan2.
  destruct (total_order_T 1 0) as [[Hlt | Heq] | Hgt]; try lra.
  replace (0 / 1) with 0 by lra. apply atan_0.
Qed.


Lemma calculateDistance_self (a : GeoLocation) : calculateDistance a a = 0.
Proof.
  unfold calculateDistance.
  replace ((lat a - lat a) * PI / 180 / 2) with 0 by lra.
  replace ((lng a - lng a) * PI / 180 / 2) with 0 by lra.
  rewrite sin_0.
  replace (0 * 0 + cos (lat a * PI / 180) * cos (lat a * PI / 180) * 0 * 0)
    with 0 by lra.
  rewrite Rminus_0_r, sqrt_0, sqrt_1, atan2_0_1. lra.
Qed.



End DistanceEngine.

(** ** Proximity evaluation *)

Section ProximityEvaluator.

Variable perm : NotificationPermission.
Variable throws : Notification -> bool.
Variable currentLoc : GeoLocation.

Lemma callback_due item scope :
  due currentLoc item ->
  proximityCallback perm throws currentLoc item scope =
    (set_notified true item, (true, sendNotification perm throws item (snd scope))).
Proof.
  intros (Hc & Hn & Hd). unfold proximityCallback. rewrite Hc, Hn. simpl.
  destruct (Rlt_dec _ _); [reflexivity | contradiction].
Qed.

Lemma callback_not_due item scope :
  ~ due currentLoc item ->
  proximityCallback perm throws currentLoc item scope = (item, scope).
Proof.
  intros Hnd. unfold proximityCallback.
  destruct (completed item) eqn:Hc; [reflexivity |].
  destruct (notified item) eqn:Hn; [reflexivity |]. simpl.
  destruct (Rlt_dec _ _) as [Hlt | Hge]; [| reflexivity].
  exfalso. apply Hnd. repeat split; assumption.
Qed.

Lemma sendNotification_calls item log :
  sendNotificationCalls (sendNotification perm throws item log) =
  sendNotificationCalls log ++ [item].
Proof. unfold sendNotification. destruct perm; try destruct (throws _); reflexivity. Qed.

Lemma mapWith_items (l : list BucketItem) (scope : bool * AlertLog) :
  fst (mapWith (proximityCallback perm throws currentLoc) l scope) =
  map (latched currentLoc) l.
Proof.
  revert scope. induction l as [| x l IH]; intros scope; [reflexivity |].
  simpl. unfold latched at 1.
  destruct (decide (due currentLoc x)) as [Hd | Hd].
  - rewrite (callback_due _ _ Hd).
    specialize (IH (true, sendNotification perm throws x (snd scope))).
    destruct (mapWith _ l _) as [ys s2]. simpl in *. congruence.
  - rewrite (callback_not_due _ _ Hd).
    specialize (IH scope). destruct (mapWith _ l _) as [ys s2].
    simpl in *. congruence.
Qed.

Lemma mapWith_calls (l : list BucketItem) (scope : bool * AlertLog) :
  sendNotificationCalls
    (snd (snd (mapWith (proximityCallback perm throws currentLoc) l scope))) =
  sendNotificationCalls (snd scope) ++ filter (due currentLoc) l.
Proof.
  revert scope. induction l as [| x l IH]; intros scope.
  - simpl. rewrite app_nil_r. reflexivity.
  - simpl. rewrite filter_cons.
    destruct (decide (due currentLoc x)) as [Hd | Hd].
    + rewrite (callback_due _ _ Hd).
      specialize (IH (true, sendNotification perm throws x (snd scope))).
      destruct (mapWith _ l _) as [ys s2]. simpl in *.
      rewrite IH, sendNotification_calls, <- app_assoc. reflexivity.
    + rewrite (callback_not_due _ _ Hd).
      specialize (IH scope). destruct (mapWith _ l _) as [ys s2].
      simpl in *. exact IH.
Qed.

Lemma mapWith_hasChanges_false (l : list BucketItem) (log : AlertLog) :
  fst (snd (mapWith (proximityCallback perm throws currentLoc) l (false, log))) = false ->
  map (latched currentLoc) l = l.
Proof.
  revert log. induction l as [| x l IH]; intros log; [reflexivity |].
  simpl. unfold latched at 1.
  destruct (decide (due currentLoc x)) as [Hd | Hd].
  - rewrite (callback_due _ _ Hd).
    assert (Hkeep : forall l' lg,
      fst (snd (mapWith (proximityCallback perm throws currentLoc) l' (true, lg))) = true).
    { clear. induction l' as [| y l' IH']; intros lg; [reflexivity |].
      simpl. unfold proximityCallback at 1.
      destruct (completed y || notified y).
      - specialize (IH' lg). destruct (mapWith _ l' _) as [ys s2]. exact IH'.
      - simpl. destruct (Rlt_dec _ _).
        + specialize (IH' (sendNotification perm throws y lg)).
          destruct (mapWith _ l' _) as [ys s2]. exact IH'.
        + specialize (IH' lg). destruct (mapWith _ l' _) as [ys s2]. exact IH'. }
    specialize (Hkeep l (sendNotification perm throws x (snd (false, log)))).
    destruct (mapWith _ l _) as [ys s2]. simpl in *. congruence.
  - rewrite (callback_not_due _ _ Hd).
    specialize (IH log). destruct (mapWith _ l _) as [ys s2]. simpl in *.
    intros H. rewrite (IH H). reflexivity.
Qed.

Lemma proximityUpdater_items (prevItems : list BucketItem) (log : AlertLog) :
  fst (proximityUpdater perm throws currentLoc prevItems log) =
  map (latched currentLoc) prevItems.
Proof.
  unfold proximityUpdater.
  pose proof (mapWith_items prevItems (false, log)) as Hi.
  pose proof (mapWith_hasChanges_false prevItems log) as Hf.
  destruct (mapWith _ prevItems _) as [newItems [hasChanges log']].
  simpl in *. destruct hasChanges; [exact Hi |].
  symmetry. apply Hf. reflexivity.
Qed.

Lemma proximityUpdater_calls (prevItems : list BucketItem) (log : AlertLog) :
  sendNotificationCalls (snd (proximityUpdater perm throws currentLoc prevItems log)) =
  sendNotificationCalls log ++ filter (due currentLoc) prevItems.
Proof.
  unfold proximityUpdater.
  pose proof (mapWith_calls prevItems (false, log)) as Hc.
  destruct (mapWith _ prevItems _) as [newItems [hasChanges log']].
  exact Hc.
Qed.

End ProximityEvaluator.

Section ProximityAlerts.

Variable perm : NotificationPermission.
Variable throws : Notification -> bool.
Variable currentLoc : GeoLocation.

(** The notifications that the calls of [sendNotification] for [queued]
    leave on the screen. *)
Lemma sendNotification_shown item log :
  shownNotifications (sendNotification perm throws item log) =
  shownNotifications log ++
  match perm with
  | granted => if throws (alertFor item) then [] else [alertFor item]
  | _ => []
  end.
Proof.
  unfold sendNotification.
  destruct perm; try destruct (throws _); simpl; rewrite ?app_nil_r; reflexivity.
Qed.

Lemma mapWith_shown (l : list BucketItem) (scope : bool * AlertLog) :
  shownNotifications
    (snd (snd (mapWith (proximityCallback perm throws currentLoc) l scope))) =
  shownNotifications (snd scope) ++
  match perm with
  | granted =>
      alertFor <$> filter (fun x => throws (alertFor x) = false)
                     (filter (due currentLoc) l)
  | _ => []
  end.
Proof.
  revert scope. induction l as [| x l IH]; intros scope.
  - simpl. destruct perm; rewrite ?filter_nil; simpl; rewrite app_nil_r; reflexivity.
  - simpl. rewrite filter_cons.
    destruct (decide (due currentLoc x)) as [Hd | Hd].
    + rewrite (callback_due _ _ _ _ _ Hd).
      specialize (IH (true, sendNotification perm throws x (snd scope))).
      destruct (mapWith _ l _) as [ys s2]. simpl in *.
      rewrite IH, sendNotification_shown, <- app_assoc. f_equal.
      destruct perm; try reflexivity.
      rewrite filter_cons. destruct (throws (alertFor x)) eqn:Ht.
      * rewrite decide_False by discriminate. reflexivity.
      * rewrite decide_True by reflexivity. reflexivity.
    + rewrite (callback_not_due _ _ _ _ _ Hd).
      specialize (IH scope). destruct (mapWith _ l _) as [ys s2].
      simpl in *. exact IH.
Qed.

Lemma proximityUpdater_shown (prevItems : list BucketItem) (log : AlertLog) :
  shownNotifications (snd (proximityUpdater perm throws currentLoc prevItems log)) =
  shownNotifications log ++
  match perm with
  | granted =>
      alertFor <$> filter (fun x => throws (alertFor x) = false)
                     (filter (due currentLoc) prevItems)
  | _ => []
  end.
Proof.
  unfold proximityUpdater.
  pose proof (mapWith_shown prevItems (false, log)) as Hs.
  destruct (mapWith _ prevItems _) as [newItems [hasChanges log']].
  exact Hs.
Qed.

End ProximityAlerts.

Lemma filter_by_id_none (k : string) (l : list BucketItem) :
  (forall z, z ∈ l -> id z <> k) -> filter (fun y => id y = k) l = [].
Proof.
  induction l as [| y l IH]; intros Hnone; [reflexivity |].
  rewrite filter_cons_False by (apply Hnone; left).
  apply IH. intros z Hz. apply Hnone. right. exact Hz.
Qed.

Lemma filter_by_id_single (l : list BucketItem) (x : BucketItem) :
  NoDup (id <$> l) -> x ∈ l -> filter (fun y => id y = id x) l = [x].
Proof.
  induction l as [| y l IH]; intros Hnd Hx; [inversion Hx |].
  rewrite fmap_cons in Hnd. apply NoDup_cons in Hnd as [Hy Hnd].
  assert (Hnone : forall z, z ∈ l -> id z <> id y).
  { intros z Hz Heq. apply Hy. rewrite <- Heq. apply list_elem_of_fmap_2, Hz. }
  apply elem_of_cons in Hx as [-> | Hx].
  - rewrite filter_cons_True by reflexivity.
    rewrite (filter_by_id_none (id y) l Hnone). reflexivity.
  - rewrite filter_cons_False by (intros Heq; exact (Hnone x Hx (eq_sym Heq))).
    apply IH; assumption.
Qed.

(** C1. One proximity evaluation returns every item that is neither
    completed nor notified and lies strictly within 2000 m of the sample with
    [notified] true and every other field as it was, and returns every other
    item as it was. The alerts it queues are its calls of [sendNotification]:
    one for each item of the first kind, in list order, with that item (and
    so its title) as the argument; when ids are unique exactly one queued
    alert has the id of such an item. What a queued alert puts on the screen
    depends on the permission that [sendNotification] sees: when it is
    granted, a notification with the title of the item in its text for every
    queued item whose constructor does not raise; otherwise nothing. *)
Theorem proximity_evaluation_latches_and_alerts
    (perm : NotificationPermission) (throws : Notification -> bool)
    (sample : GeoLocation) (its : list BucketItem) (log : AlertLog) :
  let result := proximityUpdater perm throws sample its log in
  let alert := fun x : BucketItem =>
    {| heading := "You're close!";
       body := "You are near " +:+ dquote +:+ title x +:+ dquote +:+
               ". Time to check it off your bucket list!";
       icon := "https://cdn-icons-png.flaticon.com/512/854/854878.png" |} in
  length (fst result) = length its /\
  (forall (i : nat) (item : BucketItem),
      its !! i = Some item ->
      completed item = false -> notified item = false ->
      (Geo.calculateDistance sample (targetLocation item) < 2000)%R ->
      exists item',
        fst result !! i = Some item' /\ notified item' = true /\
        id item' = id item /\ title item' = title item /\
        description item' = description item /\
        targetLocation item' = targetLocation item /\
        completed item' = completed item /\
        completedAt item' = completedAt item /\
        category item' = category item /\ interest item' = interest item /\
        createdAt item' = createdAt item /\ userId item' = userId item) /\
  (forall (i : nat) (item : BucketItem),
      its !! i = Some item ->
      ~ (completed item = false /\ notified item = false /\
         (Geo.calculateDistance sample (targetLocation item) < 2000)%R) ->
      fst result !! i = Some item) /\
  exists queued : list BucketItem,
    sendNotificationCalls (snd result) = sendNotificationCalls log ++ queued /\
    queued = filter (due sample) its /\
    (forall x, x ∈ queued <->
       x ∈ its /\ completed x = false /\ notified x = false /\
       (Geo.calculateDistance sample (targetLocation x) < 2000)%R) /\
    (NoDup (id <$> its) ->
     forall item, item ∈ its ->
       completed item = false -> notified item = false ->
       (Geo.calculateDistance sample (targetLocation item) < 2000)%R ->
       filter (fun x => id x = id item) queued = [item]) /\
    shownNotifications (snd result) =
      shownNotifications log ++
      match perm with
      | granted => alert <$> filter (fun x => throws (alert x) = false) queued
      | _ => []
      end.
Proof.
  intros result alert. subst result.
  rewrite proximityUpdater_items, proximityUpdater_calls, proximityUpdater_shown.
  split; [apply length_map |].
  split.
  { intros i item Hi Hc Hn Hd.
    exists (set_notified true item).
    rewrite list_lookup_fmap, Hi. simpl. unfold latched.
    rewrite decide_True by (repeat split; assumption).
    repeat split; reflexivity. }
  split.
  { intros i item Hi Hnd.
    rewrite list_lookup_fmap, Hi. simpl. unfold latched.
    rewrite decide_False; [reflexivity |]. exact Hnd. }
  exists (filter (due sample) its).
  split; [reflexivity |]. split; [reflexivity |]. split.
  { intros x. rewrite list_elem_of_filter. unfold due, PROXIMITY_THRESHOLD. tauto. }
  split.
  { intros Hnd item Hin Hc Hn Hd.
    apply filter_by_id_single.
    - eapply sublist_NoDup; [exact Hnd | apply fmap_sublist, sublist_filter].
    - apply list_elem_of_filter. split; [| exact Hin]. repeat split; assumption. }
  reflexivity.
Qed.

(** ** The latch over a sequence of evaluations *)

Lemma NoDup_fmap_inj_on {A B : Type} (f : A -> B) (l : list A) (x y : A) :
  NoDup (f <$> l) -> x ∈ l -> y ∈ l -> f x = f y -> x = y.
Proof.
  intros Hnd [i Hi]%list_elem_of_lookup [j Hj]%list_elem_of_lookup Hxy.
  assert (Hfi : (f <$> l) !! i = Some (f x)) by (rewrite list_lookup_fmap, Hi; reflexivity).
  assert (Hfj : (f <$> l) !! j = Some (f x)) by (rewrite list_lookup_fmap, Hj, Hxy; reflexivity).
  pose proof (NoDup_lookup _ _ _ _ Hnd Hfi Hfj) as ->.
  congruence.
Qed.

Lemma id_latched loc item : id (latched loc item) = id item.
Proof. unfold latched. destruct (decide _); reflexivity. Qed.

Lemma ids_latched loc (l : list BucketItem) :
  id <$> (latched loc <$> l) = id <$> l.
Proof.
  rewrite <- list_fmap_compose. apply list_fmap_ext.
  intros i x _. apply id_latched.
Qed.

Lemma notified_latched loc item :
  notified item = true \/ due loc item -> notified (latched loc item) = true.
Proof.
  unfold latched. intros [Hn | Hd].
  - destruct (decide _); [reflexivity | exact Hn].
  - rewrite decide_True by exact Hd. reflexivity.
Qed.

Lemma mapWith_shown_sublist perm throws loc (l : list BucketItem) (scope : bool * AlertLog) :
  exists sh,
    shownNotifications
      (snd (snd (mapWith (proximityCallback perm throws loc) l scope))) =
    shownNotifications (snd scope) ++ sh /\
    sh `sublist_of` (alertFor <$> filter (due loc) l).
Proof.
  revert scope. induction l as [| x l IH]; intros scope.
  - exists []. simpl. rewrite app_nil_r. split; [reflexivity | constructor].
  - simpl. rewrite filter_cons.
    destruct (decide (due loc x)) as [Hd | Hd].
    + rewrite (callback_due _ _ _ _ _ Hd).
      destruct (IH (true, sendNotification perm throws x (snd scope))) as (sh & He & Hs).
      destruct (mapWith _ l _) as [ys s2]. simpl in *. rewrite He.
      unfold sendNotification.
      destruct perm; [destruct (throws (alertFor x)) |..]; simpl.
      * exists sh. split; [reflexivity | by apply sublist_cons].
      * exists (alertFor x :: sh). rewrite <- app_assoc.
        split; [reflexivity | by apply sublist_skip].
      * exists sh. split; [reflexivity | by apply sublist_cons].
      * exists sh. split; [reflexivity | by apply sublist_cons].
    + rewrite (callback_not_due _ _ _ _ _ Hd).
      destruct (IH scope) as (sh & He & Hs).
      destruct (mapWith _ l _) as [ys s2]. simpl in *.
      exists sh. split; assumption.
Qed.

Lemma proximityUpdater_shown_sublist perm throws loc (l : list BucketItem) (log : AlertLog) :
  exists sh,
    shownNotifications (snd (proximityUpdater perm throws loc l log)) =
    shownNotifications log ++ sh /\
    sh `sublist_of` (alertFor <$> filter (due loc) l).
Proof.
  unfold proximityUpdater.
  pose proof (mapWith_shown_sublist perm throws loc l (false, log)) as Hs.
  destruct (mapWith _ l _) as [newItems [hasChanges log']].
  exact Hs.
Qed.

Lemma alertedOnce_proximityUpdater perm throws loc its log :
  alertedOnce its log ->
  alertedOnce (fst (proximityUpdater perm throws loc its log))
              (snd (proximityUpdater perm throws loc its log)).
Proof.
  intros (Hids & Hcalls & Hlatch & Hshown).
  destruct (proximityUpdater_shown_sublist perm throws loc its log) as (sh & Hsh & Hsub).
  unfold alertedOnce.
  rewrite proximityUpdater_items, proximityUpdater_calls, Hsh.
  rewrite ids_latched, !fmap_app.
  split; [exact Hids |].
  assert (Hnew : forall y, y ∈ filter (due loc) its -> y ∈ its /\ due loc y).
  { intros y Hy%list_elem_of_filter. tauto. }
  split; [| split].
  - apply NoDup_app. split; [exact Hcalls |]. split.
    + intros i Hi Hi'. apply list_elem_of_fmap in Hi' as (y & -> & Hy).
      destruct (Hnew y Hy) as (Hyin & _ & Hyn & _).
      rewrite (Hlatch y Hyin Hi) in Hyn. discriminate.
    + eapply sublist_NoDup; [exact Hids | apply fmap_sublist, sublist_filter].
  - intros x' Hx' Hin.
    apply list_elem_of_fmap in Hx' as (x & -> & Hx).
    rewrite id_latched in Hin. apply notified_latched.
    apply elem_of_app in Hin as [Hold | Hnw].
    + left. apply (Hlatch x Hx Hold).
    + right. apply list_elem_of_fmap in Hnw as (y & Hxy & Hy).
      destruct (Hnew y Hy) as (Hyin & Hyd).
      rewrite (NoDup_fmap_inj_on id its x y Hids Hx Hyin Hxy). exact Hyd.
  - apply sublist_app; assumption.
Qed.

(** ** Frame lemmas of the handlers *)

Ltac unfold_handlers :=
  unfold step, dispatch, pollingEffect, callback, toggleTracking, handleError,
    handleSuccess, checkProximity, updateLocation, getCurrentPosition in *.

Ltac crush_frame :=
  unfold_handlers;
  repeat (match goal with
          | |- context [match ?x with _ => _ end] => destruct x eqn:?
          end; simpl in *);
  try reflexivity; try congruence.

Lemma pollingEffect_items prev s : items (pollingEffect prev s) = items s.
Proof. crush_frame. Qed.

Lemma pollingEffect_alerts prev s : alerts (pollingEffect prev s) = alerts s.
Proof. crush_frame. Qed.

Lemma pollingEffect_env prev s :
  closurePermission (pollingEffect prev s) = closurePermission s /\
  notificationThrows (pollingEffect prev s) = notificationThrows s.
Proof. split; crush_frame. Qed.

(** [handleError] with the two things the [switch] decides told apart. *)
Lemma handleError_unfold code low s :
  handleError code low s =
  if (code =? 3) && negb low then getCurrentPosition lowAccuracyRequest s
  else set_geoError (Some (errorMessage code))
         (if code =? 1 then set_isTracking false s else s).
Proof.
  unfold handleError. destruct ((code =? 3) && negb low); [reflexivity |].
  destruct code as [| p | p]; try reflexivity;
    do 3 (try destruct p as [p | p |]; try reflexivity).
Qed.

Lemma handleError_frame code low s :
  items (handleError code low s) = items s /\
  alerts (handleError code low s) = alerts s /\
  closurePermission (handleError code low s) = closurePermission s /\
  notificationThrows (handleError code low s) = notificationThrows s.
Proof.
  rewrite handleError_unfold.
  destruct ((code =? 3) && negb low), (code =? 1); repeat split; reflexivity.
Qed.

Lemma checkProximity_items loc s :
  items (checkProximity loc s) =
  fst (proximityUpdater (closurePermission s) (notificationThrows s) loc (items s) (alerts s)).
Proof. unfold checkProximity. destruct (proximityUpdater _ _ _ _ _). reflexivity. Qed.

Lemma checkProximity_alerts loc s :
  alerts (checkProximity loc s) =
  snd (proximityUpdater (closurePermission s) (notificationThrows s) loc (items s) (alerts s)).
Proof. unfold checkProximity. destruct (proximityUpdater _ _ _ _ _). reflexivity. Qed.

Lemma checkProximity_env loc s :
  closurePermission (checkProximity loc s) = closurePermission s /\
  notificationThrows (checkProximity loc s) = notificationThrows s.
Proof. unfold checkProximity. destruct (proximityUpdater _ _ _ _ _). split; reflexivity. Qed.

Lemma step_env e s :
  closurePermission (step e s) = closurePermission s /\
  notificationThrows (step e s) = notificationThrows s.
Proof.
  destruct e as [| | n [pos | code] | |]; simpl;
    try (split; reflexivity); unfold dispatch.
  - rewrite !(proj1 (pollingEffect_env _ _)), !(proj2 (pollingEffect_env _ _)).
    unfold toggleTracking. destruct (isTracking s); split; reflexivity.
  - destruct (pollingTimer s); [| split; reflexivity].
    rewrite !(proj1 (pollingEffect_env _ _)), !(proj2 (pollingEffect_env _ _)).
    unfold updateLocation, getCurrentPosition.
    destruct (geolocationSupported s); split; reflexivity.
  - destruct (pendingRequests s !! n); [| split; reflexivity].
    rewrite !(proj1 (pollingEffect_env _ _)), !(proj2 (pollingEffect_env _ _)).
    simpl. unfold handleSuccess.
    rewrite (proj1 (checkProximity_env _ _)), (proj2 (checkProximity_env _ _)).
    split; reflexivity.
  - destruct (pendingRequests s !! n); [| split; reflexivity].
    rewrite !(proj1 (pollingEffect_env _ _)), !(proj2 (pollingEffect_env _ _)).
    simpl. destruct (handleError_frame code (isLowAccuracy g)
      (set_pendingRequests (delete n (pendingRequests s)) s)) as (_ & _ & -> & ->).
    split; reflexivity.
Qed.

(** A step either leaves the items and the alert log alone or is one
    proximity evaluation on the items of the state. *)
Lemma step_items_alerts e s :
  (items (step e s) = items s /\ alerts (step e s) = alerts s) \/
  exists loc,
    items (step e s) =
      fst (proximityUpdater (closurePermission s) (notificationThrows s) loc
             (items s) (alerts s)) /\
    alerts (step e s) =
      snd (proximityUpdater (closurePermission s) (notificationThrows s) loc
             (items s) (alerts s)).
Proof.
  destruct e as [| | n [pos | code] | |]; simpl; try (left; split; reflexivity);
    unfold dispatch.
  - left. rewrite pollingEffect_items, pollingEffect_alerts.
    unfold toggleTracking. destruct (isTracking s); split; reflexivity.
  - left. destruct (pollingTimer s); [| split; reflexivity].
    rewrite pollingEffect_items, pollingEffect_alerts.
    unfold updateLocation, getCurrentPosition.
    destruct (geolocationSupported s); split; reflexivity.
  - destruct (pendingRequests s !! n); [| left; split; reflexivity].
    right. exists {| lat := lat pos; lng := lng pos |}.
    rewrite pollingEffect_items, pollingEffect_alerts. simpl.
    unfold handleSuccess.
    rewrite checkProximity_items, checkProximity_alerts. split; reflexivity.
  - left. destruct (pendingRequests s !! n); [| split; reflexivity].
    rewrite pollingEffect_items, pollingEffect_alerts. simpl.
    destruct (handleError_frame code (isLowAccuracy g)
      (set_pendingRequests (delete n (pendingRequests s)) s)) as (-> & -> & _ & _).
    split; reflexivity.
Qed.

Lemma alertedOnce_step e s :
  alertedOnce (items s) (alerts s) -> alertedOnce (items (step e s)) (alerts (step e s)).
Proof.
  intros H. destruct (step_items_alerts e s) as [[-> ->] | (loc & -> & ->)].
  - exact H.
  - apply alertedOnce_proximityUpdater. exact H.
Qed.

Lemma alertedOnce_run es s :
  alertedOnce (items s) (alerts s) -> alertedOnce (items (run es s)) (alerts (run es s)).
Proof.
  revert s. induction es as [| e es IH]; intros s H; [exact H |].
  simpl. apply IH, alertedOnce_step, H.
Qed.

Lemma cafe_due : due cafeLocation cafe.
Proof.
  repeat split. simpl. rewrite calculateDistance_self.
  unfold PROXIMITY_THRESHOLD. lra.
Qed.

Lemma checkProximity_latches loc s :
  items (checkProximity loc s) = latched loc <$> items s.
Proof. rewrite checkProximity_items. apply proximityUpdater_items. Qed.

Lemma checkProximity_stores loc s :
  localDB (checkProximity loc s) = localDB s /\
  mockStorage (checkProximity loc s) = mockStorage s /\
  user (checkProximity loc s) = user s.
Proof.
  unfold checkProximity. destruct (proximityUpdater _ _ _ _ _).
  repeat split; reflexivity.
Qed.

(** C1, on the scenario: the cafe is due at its own location and comes back
    latched, with its title. *)
Lemma proximity_evaluation_witness :
  exists item',
    fst (proximityUpdater default (fun _ => false) cafeLocation [cafe] noAlerts) !! 0%nat =
      Some item' /\
    notified item' = true /\ title item' = "Nearby Coffee Spot".
Proof.
  pose proof (proximity_evaluation_latches_and_alerts default (fun _ => false)
                cafeLocation [cafe] noAlerts) as H.
  cbv zeta in H. destruct H as (_ & H & _).
  destruct (H 0%nat cafe) as (item' & Hi & Hn & _ & Ht & _);
    [reflexivity | reflexivity | reflexivity | |].
  - simpl. rewrite calculateDistance_self. lra.
  - exists item'. rewrite Ht. auto.
Defined.

(** The latch over tracker events alone. The events here are the button,
    the interval, the answers of the location service, the dismissal and the
    permission answer; deliveries of the cloud subscription, reloads and
    saves of the edit form are not among them. Along any sequence of these
    events that starts with unique ids and an empty alert log, no item is
    handed to [sendNotification] twice, the alerts shown are among those
    asked for, and in every state reached each item an alert was asked for
    has [notified] set. The latch does not depend on the alert having been
    shown: an evaluation sets it on every due item whatever the constructor
    of the notification does. *)
Theorem latch_committed_with_alert_at_most_once (es : list Event) (s : App) :
  NoDup (id <$> items s) ->
  alerts s = noAlerts ->
  let s' := run es s in
  NoDup (id <$> sendNotificationCalls (alerts s')) /\
  shownNotifications (alerts s') `sublist_of`
    (alertFor <$> sendNotificationCalls (alerts s')) /\
  (forall x, x ∈ items s' ->
     id x ∈ (id <$> sendNotificationCalls (alerts s')) -> notified x = true) /\
  (forall loc (i : nat) item,
     items s' !! i = Some item -> due loc item ->
     notificationThrows s' (alertFor item) = true ->
     items (checkProximity loc s') !! i = Some (set_notified true item)).
Proof.
  intros Hids Hlog s'.
  assert (Hinv : alertedOnce (items s') (alerts s')).
  { apply alertedOnce_run. unfold alertedOnce. rewrite Hlog. simpl.
    repeat split; [exact Hids | constructor | | constructor].
    intros x _ Hx. inversion Hx. }
  destruct Hinv as (_ & Hcalls & Hlatch & Hshown).
  repeat split; try assumption.
  intros loc i item Hi Hd _.
  rewrite checkProximity_latches, list_lookup_fmap, Hi. simpl.
  unfold latched. rewrite decide_True by exact Hd. reflexivity.
Qed.

(** On the scenario: tracking is switched on, the first fix is at the cafe,
    the interval fires and the second fix is at the cafe again. *)
Lemma latch_committed_witness :
  NoDup (id <$> sendNotificationCalls (alerts
    (run [ToggleTracking; Resolves 0 (Position cafeLocation); IntervalFires;
          Resolves 0 (Position cafeLocation)] cafeApp))).
Proof.
  apply (latch_committed_with_alert_at_most_once
           [ToggleTracking; Resolves 0 (Position cafeLocation); IntervalFires;
            Resolves 0 (Position cafeLocation)] cafeApp).
  - simpl. apply NoDup_singleton.
  - reflexivity.
Defined.

(** C10. A proximity evaluation writes to neither store: the local database
    and the cloud storage are what they were, so a reload delivers the same
    items as a reload before the evaluation; when memory agreed with the
    store before the evaluation, the reload brings back the items as they
    were, the [notified] flags of before the latch included. *)
Theorem proximity_evaluation_writes_no_store (loc : GeoLocation) (s : App) :
  localDB (checkProximity loc s) = localDB s /\
  mockStorage (checkProximity loc s) = mockStorage s /\
  items (loadItems (checkProximity loc s)) = items (loadItems s) /\
  (items (loadItems s) = items s ->
   items (loadItems (checkProximity loc s)) = items s).
Proof.
  destruct (checkProximity_stores loc s) as (Hdb & Hcloud & Huser).
  assert (Hload : items (loadItems (checkProximity loc s)) = items (loadItems s)).
  { unfold loadItems. rewrite Huser, Hdb, Hcloud.
    destruct (user s); reflexivity. }
  repeat split; try assumption.
  intros Hsync. rewrite Hload. exact Hsync.
Qed.

Lemma cafeApp_loaded : items (loadItems cafeApp) = items cafeApp.
Proof.
  unfold loadItems, cafeApp, LocalDatabase.getAllItems, LocalDatabase.saveItem.
  simpl. rewrite insert_empty, map_to_list_singleton. reflexivity.
Qed.

(** C10, on the scenario: the cafe is latched in memory by an evaluation at
    its location, and a reload from the database brings back the list with
    the flag still off. *)
Lemma proximity_evaluation_no_store_witness :
  items (loadItems (checkProximity cafeLocation cafeApp)) = [cafe].
Proof.
  destruct (proximity_evaluation_writes_no_store cafeLocation cafeApp)
    as (_ & _ & _ & H).
  apply H. exact cafeApp_loaded.
Defined.

(** ** The latch and the edit form *)

Lemma cafe_latched : items (checkProximity cafeLocation (initiateEdit cafe cafeApp)) =
  [set_notified true cafe].
Proof.
  rewrite checkProximity_latches. simpl. unfold latched.
  rewrite decide_True by exact cafe_due. reflexivity.
Qed.

(** C2, at the failing input: the edit form is opened on the cafe, an
    evaluation at the cafe latches it, and saving the form puts the copy taken
    when the form was opened back on the list, with [notified] off again. *)
Theorem stale_edit_resets_notified :
  let s1 := initiateEdit cafe cafeApp in
  let s2 := checkProximity cafeLocation s1 in
  let s3 := handleSaveItem "Coffee Spot" "Food" "Chill" cafeLocation None "f00d" 1700000060000 s2 in
  notified <$> items s2 = [true] /\
  notified <$> items s3 = [false] /\
  id <$> items s3 = id <$> items s2 /\
  notified <$> LocalDatabase.getAllItems (localDB s3) = [false].
Proof.
  intros s1 s2 s3.
  assert (H2 : items s2 = [set_notified true cafe]) by exact cafe_latched.
  assert (He : editingItem s2 = Some cafe).
  { unfold s2, checkProximity. destruct (proximityUpdater _ _ _ _ _). reflexivity. }
  assert (Hu : user s2 = None).
  { unfold s2. rewrite (proj2 (proj2 (checkProximity_stores _ _))). reflexivity. }
  assert (Hdb : localDB s2 = {[ id cafe := cafe ]}).
  { unfold s2. rewrite (proj1 (checkProximity_stores _ _)). simpl.
    unfold LocalDatabase.saveItem. apply insert_empty. }
  assert (H3 : items s3 = [edited cafe "Coffee Spot" "Food" "Chill" cafeLocation None]).
  { unfold s3, handleSaveItem. rewrite He, Hu. simpl. rewrite H2. simpl.
    try rewrite decide_True by reflexivity. reflexivity. }
  assert (Hdb3 : localDB s3 =
                 {[ id cafe := edited cafe "Coffee Spot" "Food" "Chill" cafeLocation None ]}).
  { unfold s3, handleSaveItem. rewrite He, Hu. simpl. rewrite Hdb.
    unfold LocalDatabase.saveItem. simpl. rewrite insert_singleton_eq. reflexivity. }
  rewrite H2, H3. unfold LocalDatabase.getAllItems. rewrite Hdb3.
  rewrite map_to_list_singleton. repeat split; reflexivity.
Qed.

(** ** Location sampling *)

Lemma pollingEffect_same prev s : isTracking s = prev -> pollingEffect prev s = s.
Proof.
  intros <-. unfold pollingEffect. rewrite Bool.eqb_reflx. reflexivity.
Qed.

Lemma updateLocation_request s :
  geolocationSupported s = true ->
  dispatch updateLocation s =
  set_pendingRequests (pendingRequests s ++ [highAccuracyRequest]) s.
Proof.
  intros Hgeo. unfold dispatch, updateLocation. rewrite Hgeo.
  apply pollingEffect_same. reflexivity.
Qed.

Lemma resolve_position s n req pos :
  pendingRequests s !! n = Some req ->
  step (Resolves n (Position pos)) s =
  handleSuccess pos (set_pendingRequests (delete n (pendingRequests s)) s).
Proof.
  intros Hreq. simpl. rewrite Hreq. unfold dispatch. simpl.
  apply pollingEffect_same.
  unfold handleSuccess, checkProximity. destruct (proximityUpdater _ _ _ _ _).
  reflexivity.
Qed.

Lemma handleSuccess_fields pos s :
  geoError (handleSuccess pos s) = None /\
  currentLocation (handleSuccess pos s) = Some pos /\
  pendingRequests (handleSuccess pos s) = pendingRequests s /\
  isTracking (handleSuccess pos s) = isTracking s /\
  pollingTimer (handleSuccess pos s) = pollingTimer s /\
  items (handleSuccess pos s) = latched pos <$> items s.
Proof.
  assert (Hpos : {| lat := lat pos; lng := lng pos |} = pos) by (destruct pos; reflexivity).
  unfold handleSuccess. rewrite Hpos, checkProximity_latches.
  unfold checkProximity. destruct (proximityUpdater _ _ _ _ _).
  repeat split; reflexivity.
Qed.

Lemma resolve_timeout_high s n req :
  pendingRequests s !! n = Some req -> isLowAccuracy req = false ->
  step (Resolves n (PositionError 3)) s =
  set_pendingRequests (delete n (pendingRequests s) ++ [lowAccuracyRequest]) s.
Proof.
  intros Hreq Hhigh. simpl. rewrite Hreq. unfold dispatch. simpl.
  rewrite Hhigh. simpl. apply pollingEffect_same. reflexivity.
Qed.

(** An error that ends the attempt: any error of the fallback request, and
    any error but a timeout of the first request. *)
Lemma resolve_final_error s n req code :
  pendingRequests s !! n = Some req ->
  (code =? 3) && negb (isLowAccuracy req) = false ->
  let s' := step (Resolves n (PositionError code)) s in
  geoError s' = Some (errorMessage code) /\
  pendingRequests s' = delete n (pendingRequests s) /\
  currentLocation s' = currentLocation s /\
  items s' = items s /\
  (code = 1 -> isTracking s' = false /\ (isTracking s = true -> pollingTimer s' = false)) /\
  (code <> 1 -> isTracking s' = isTracking s /\ pollingTimer s' = pollingTimer s).
Proof.
  intros Hreq Hfinal. simpl. rewrite Hreq. unfold dispatch. simpl.
  rewrite handleError_unfold, Hfinal.
  destruct (Z.eqb_spec code 1) as [-> | Hne].
  - unfold pollingEffect. simpl. destruct (isTracking s); simpl;
      repeat split; try reflexivity; try congruence.
  - rewrite pollingEffect_same by reflexivity.
    repeat split; try reflexivity; intros; congruence.
Qed.

Section SampleAttempt.

Variable s : App.
Hypothesis Hgeo : geolocationSupported s = true.

Lemma attempt_issued :
  dispatch updateLocation s =
  set_pendingRequests (pendingRequests s ++ [highAccuracyRequest]) s.
Proof. apply updateLocation_request, Hgeo. Qed.

Lemma attempt_lookup :
  pendingRequests (dispatch updateLocation s) !! length (pendingRequests s) =
  Some highAccuracyRequest.
Proof. rewrite attempt_issued. simpl. apply list_lookup_middle. reflexivity. Qed.

Lemma attempt_delete :
  delete (length (pendingRequests s)) (pendingRequests (dispatch updateLocation s)) =
  pendingRequests s.
Proof.
  rewrite attempt_issued. simpl. rewrite delete_middle. apply app_nil_r.
Qed.

Lemma attempt_timeout :
  step (Resolves (length (pendingRequests s)) (PositionError 3))
    (dispatch updateLocation s) =
  set_pendingRequests (pendingRequests s ++ [lowAccuracyRequest]) s.
Proof.
  rewrite (resolve_timeout_high _ _ highAccuracyRequest attempt_lookup eq_refl).
  rewrite attempt_delete, attempt_issued. reflexivity.
Qed.

Lemma no_request_left (s' : App) r :
  pendingRequests s' = pendingRequests s ->
  step (Resolves (length (pendingRequests s)) r) s' = s'.
Proof.
  intros Hp. simpl. rewrite Hp.
  rewrite (proj2 (lookup_ge_None (pendingRequests s) (length (pendingRequests s))));
    [reflexivity | lia].
Qed.

(** The answer of the fallback request ends the attempt. *)
Lemma attempt_fallback (low : GeoResult) :
  let s3 := step (Resolves (length (pendingRequests s)) low)
              (set_pendingRequests (pendingRequests s ++ [lowAccuracyRequest]) s) in
  pendingRequests s3 = pendingRequests s /\
  match low with
  | Position pos => geoError s3 = None /\ currentLocation s3 = Some pos
  | PositionError code =>
      geoError s3 = Some (errorMessage code) /\
      (code = 1 ->
       isTracking s3 = false /\ (isTracking s = true -> pollingTimer s3 = false)) /\
      (code <> 1 ->
       isTracking s3 = isTracking s /\ pollingTimer s3 = pollingTimer s)
  end.
Proof.
  intros s3. unfold s3. clear s3.
  set (s2 := set_pendingRequests (pendingRequests s ++ [lowAccuracyRequest]) s).
  assert (Hreq : pendingRequests s2 !! length (pendingRequests s) = Some lowAccuracyRequest).
  { simpl. apply list_lookup_middle. reflexivity. }
  assert (Hdel : delete (length (pendingRequests s)) (pendingRequests s2) = pendingRequests s).
  { simpl. rewrite delete_middle. apply app_nil_r. }
  destruct low as [pos | code].
  - rewrite (resolve_position s2 _ _ pos Hreq).
    destruct (handleSuccess_fields pos
                (set_pendingRequests (delete (length (pendingRequests s)) (pendingRequests s2)) s2))
      as (He & Hc & Hp & _).
    rewrite He, Hc, Hp. simpl. rewrite delete_middle, app_nil_r. auto.
  - destruct (resolve_final_error s2 _ lowAccuracyRequest code Hreq)
      as (He & Hp & _ & _ & Hden & Hoth).
    { simpl. apply andb_false_r. }
    rewrite Hp, Hdel. auto.
Qed.

End SampleAttempt.

(** C5. In a sample attempt whose high-accuracy request times out, exactly
    one further request is made: low accuracy, cache age unbounded. Nothing
    is surfaced by the timeout itself. Whatever the fallback answers, no
    request of the attempt is left afterwards: a failing fallback, a timeout
    included, is surfaced and not retried; a fix from the fallback clears the
    error slot and becomes the current location. *)
Theorem timeout_falls_back_exactly_once (s : App) (low : GeoResult) :
  geolocationSupported s = true ->
  let n := length (pendingRequests s) in
  let s1 := dispatch updateLocation s in
  let s2 := step (Resolves n (PositionError 3)) s1 in
  let s3 := step (Resolves n low) s2 in
  pendingRequests s1 = pendingRequests s ++ [highAccuracyRequest] /\
  pendingRequests s2 = pendingRequests s ++ [lowAccuracyRequest] /\
  enableHighAccuracy lowAccuracyRequest = false /\
  maximumAge lowAccuracyRequest = None /\
  geoError s2 = geoError s /\
  currentLocation s2 = currentLocation s /\
  pendingRequests s3 = pendingRequests s /\
  s3 = sampleAttempt (PositionError 3) low s /\
  match low with
  | Position pos => geoError s3 = None /\ currentLocation s3 = Some pos
  | PositionError code => geoError s3 = Some (errorMessage code)
  end.
Proof.
  intros Hgeo n s1 s2 s3.
  assert (H1 : s1 = set_pendingRequests (pendingRequests s ++ [highAccuracyRequest]) s)
    by exact (attempt_issued s Hgeo).
  assert (H2 : s2 = set_pendingRequests (pendingRequests s ++ [lowAccuracyRequest]) s)
    by exact (attempt_timeout s Hgeo).
  split; [rewrite H1; reflexivity |].
  split; [rewrite H2; reflexivity |].
  do 2 (split; [reflexivity |]).
  split; [rewrite H2; reflexivity |].
  split; [rewrite H2; reflexivity |].
  destruct (attempt_fallback s low) as (Hp & Hlow).
  fold n in Hp, Hlow. rewrite <- H2 in Hp, Hlow. fold s3 in Hp, Hlow.
  split; [exact Hp |]. split; [reflexivity |].
  destruct low as [pos | code]; [exact Hlow | exact (proj1 Hlow)].
Qed.

(** C5, on the scenario: the first request times out, the fallback delivers
    the location of the cafe. *)
Lemma timeout_fallback_witness :
  geoError (sampleAttempt (PositionError 3) (Position cafeLocation) cafeApp) = None /\
  currentLocation (sampleAttempt (PositionError 3) (Position cafeLocation) cafeApp) =
    Some cafeLocation.
Proof.
  destruct (timeout_falls_back_exactly_once cafeApp (Position cafeLocation) eq_refl)
    as (_ & _ & _ & _ & _ & _ & _ & <- & H).
  exact H.
Defined.

(** C6. A sample attempt that fails with PermissionDenied switches tracking
    off (and with it the interval); one that fails with PositionUnavailable
    or Timeout leaves tracking and the interval as they were; in both cases
    the message of the error is in the error slot. An attempt that delivers a
    fix empties the slot, and so does dismissing it. An attempt fails with
    the error of its first request, or, when that one timed out, with the
    error of the fallback. *)
Theorem sample_failure_taxonomy (high low : GeoResult) (s : App) :
  geolocationSupported s = true ->
  let s' := sampleAttempt high low s in
  match attemptResult high low with
  | PositionError code =>
      geoError s' = Some (errorMessage code) /\
      (code = 1 ->
       isTracking s' = false /\ (isTracking s = true -> pollingTimer s' = false)) /\
      (code = 2 \/ code = 3 ->
       isTracking s' = isTracking s /\ pollingTimer s' = pollingTimer s)
  | Position pos => geoError s' = None /\ currentLocation s' = Some pos
  end /\
  geoError (step DismissGeoError s') = None.
Proof.
  intros Hgeo s'. split; [| reflexivity].
  unfold s', sampleAttempt.
  pose proof (attempt_lookup s Hgeo) as Hreq.
  pose proof (attempt_delete s Hgeo) as Hdel.
  pose proof (attempt_issued s Hgeo) as H1.
  destruct high as [pos | code]; simpl attemptResult.
  - (* the first request delivers a fix *)
    rewrite (resolve_position _ _ _ pos Hreq), Hdel.
    destruct (handleSuccess_fields pos
                (set_pendingRequests (pendingRequests s) (dispatch updateLocation s)))
      as (He & Hc & Hp & _).
    rewrite (no_request_left s) by exact Hp. auto.
  - destruct (Z.eqb_spec code 3) as [-> | Hne].
    + (* timeout: the attempt goes on with the fallback *)
      rewrite (attempt_timeout s Hgeo).
      destruct (attempt_fallback s low) as (_ & Hlow).
      destruct low as [pos | code]; [exact Hlow |].
      destruct Hlow as (He & Hden & Hoth).
      split; [exact He |]. split; [exact Hden |].
      intros Hc. apply Hoth. lia.
    + (* any other error ends the attempt *)
      destruct (resolve_final_error _ _ highAccuracyRequest code Hreq)
        as (He & Hp & _ & _ & Hden & Hoth).
      { apply andb_false_iff. left. apply Z.eqb_neq, Hne. }
      rewrite (no_request_left s) by (rewrite Hp; exact Hdel).
      assert (Ht : isTracking (dispatch updateLocation s) = isTracking s)
        by (rewrite H1; reflexivity).
      assert (Hpt : pollingTimer (dispatch updateLocation s) = pollingTimer s)
        by (rewrite H1; reflexivity).
      rewrite Ht in Hden, Hoth. rewrite Hpt in Hoth.
      split; [exact He |]. split; [exact Hden |].
      intros Hc. apply Hoth. lia.
Qed.

(** C6, on the scenario: tracking is on and the first request is refused. *)
Lemma sample_failure_witness :
  isTracking (sampleAttempt (PositionError 1) (Position cafeLocation)
                (step ToggleTracking cafeApp)) = false.
Proof.
  destruct (sample_failure_taxonomy (PositionError 1) (Position cafeLocation)
              (step ToggleTracking cafeApp) eq_refl) as ((_ & Hdenied & _) & _).
  exact (proj1 (Hdenied eq_refl)).
Defined.

(** ** Stopping the tracker *)

Lemma toggle_off s :
  isTracking s = true ->
  step ToggleTracking s =
  set_pollingTimer false (set_geoError None (set_isTracking false s)).
Proof.
  intros Ht. simpl. unfold dispatch, toggleTracking, pollingEffect.
  rewrite Ht. reflexivity.
Qed.

(** C4 as stated fails: tracking is switched on (one request goes out) and
    off again; the request then delivers the location of the cafe, which
    becomes the current location, and the evaluation latches the cafe and
    asks for its alert. *)
Lemma stale_fix_is_processed_after_stop :
  ~ (forall (s : App) (n : nat) (pos : GeoLocation),
       isTracking s = false ->
       currentLocation (step (Resolves n (Position pos)) s) = currentLocation s /\
       items (step (Resolves n (Position pos)) s) = items s /\
       alerts (step (Resolves n (Position pos)) s) = alerts s).
Proof.
  intros Hclaim.
  pose (s2 := step ToggleTracking (step ToggleTracking cafeApp)).
  assert (Hstopped : isTracking s2 = false) by reflexivity.
  assert (Hreq : pendingRequests s2 !! 0%nat = Some highAccuracyRequest) by reflexivity.
  destruct (Hclaim s2 0%nat cafeLocation Hstopped) as (Hloc & _).
  rewrite (resolve_position s2 0 _ cafeLocation Hreq) in Hloc.
  rewrite (proj1 (proj2 (handleSuccess_fields _ _))) in Hloc.
  discriminate Hloc.
Qed.

(** C4, amended. Stopping the tracker clears the interval and leaves the
    outstanding requests outstanding; the interval does not fire any more.
    A request that delivers a fix after the stop is processed like any
    other: its fix becomes the current location and the evaluation runs on
    it; tracking stays off. *)
Theorem stop_cancels_timer_not_requests (s : App) :
  isTracking s = true ->
  let s' := step ToggleTracking s in
  isTracking s' = false /\
  pollingTimer s' = false /\
  pendingRequests s' = pendingRequests s /\
  step IntervalFires s' = s' /\
  (forall (n : nat) (req : GeoRequest) (pos : GeoLocation),
     pendingRequests s' !! n = Some req ->
     let s'' := step (Resolves n (Position pos)) s' in
     currentLocation s'' = Some pos /\
     items s'' = latched pos <$> items s' /\
     alerts s'' =
       snd (proximityUpdater (closurePermission s') (notificationThrows s') pos
              (items s') (alerts s')) /\
     isTracking s'' = false /\ pollingTimer s'' = false).
Proof.
  intros Ht s'. unfold s'. rewrite (toggle_off s Ht).
  do 4 (split; [reflexivity |]).
  intros n req pos Hreq.
  rewrite (resolve_position _ n req pos Hreq).
  match goal with |- context [handleSuccess pos ?st] =>
    destruct (handleSuccess_fields pos st) as (_ & Hc & _ & Hi & Hp & Hl)
  end.
  split; [exact Hc |]. split; [exact Hl |].
  split; [| split; [exact Hi | exact Hp]].
  unfold handleSuccess. rewrite checkProximity_alerts.
  destruct pos; reflexivity.
Qed.

(** C4 amended, on the scenario: the request of the start is answered after
    the stop, and the answer is taken. *)
Lemma stop_cancels_timer_witness :
  currentLocation
    (step (Resolves 0 (Position cafeLocation))
       (step ToggleTracking (step ToggleTracking cafeApp))) = Some cafeLocation.
Proof.
  destruct (stop_cancels_timer_not_requests (step ToggleTracking cafeApp) eq_refl)
    as (_ & _ & _ & _ & H).
  exact (proj1 (H 0%nat highAccuracyRequest cafeLocation eq_refl)).
Defined.

(** ** Backup import *)

Lemma set_localDB_same s : set_localDB (localDB s) s = s.
Proof. destruct s. reflexivity. Qed.

(** C7. A backup document whose [items] is not an array is rejected with the
    format error before the object store is touched, and the dialog only
    records the failure: the items in the store and in memory, and the
    custom lists, are what they were. *)
Theorem import_rejects_non_array_items (data : Backup.BackupData) (s : App) :
  Backup.items data = NotArray ->
  importBackup (Document data) (localDB s) =
    (inl (FormatError "Invalid backup file format"), localDB s) /\
  handleFileChange (Document data) s =
    set_importMsg (Some (error, "Invalid backup file.")) s /\
  localDB (handleFileChange (Document data) s) = localDB s /\
  items (handleFileChange (Document data) s) = items s /\
  customBuckets (handleFileChange (Document data) s) = customBuckets s /\
  customInterests (handleFileChange (Document data) s) = customInterests s.
Proof.
  intros Hna.
  assert (Hi : importBackup (Document data) (localDB s) =
               (inl (FormatError "Invalid backup file format"), localDB s)).
  { unfold importBackup. rewrite Hna. reflexivity. }
  assert (Hh : handleFileChange (Document data) s =
               set_importMsg (Some (error, "Invalid backup file.")) s).
  { unfold handleFileChange. rewrite Hi, set_localDB_same. reflexivity. }
  rewrite Hh. repeat split; assumption || reflexivity.
Qed.

(** C7, on the scenario: a document that carries a string where the items
    should be. *)
Lemma import_rejects_witness :
  items (handleFileChange
           (Document (Backup.mkBackupData NotArray (IsArray ["Food"]) NotArray 1700000000000))
           cafeApp) = [cafe].
Proof.
  destruct (import_rejects_non_array_items
              (Backup.mkBackupData NotArray (IsArray ["Food"]) NotArray 1700000000000)
              cafeApp eq_refl) as (_ & _ & _ & H & _).
  exact H.
Defined.

(** ** The item stores *)

Section Stores.

Variable item : BucketItem.
Variable userId : string.

Lemma local_saveItem_twice (db : gmap string BucketItem) :
  LocalDatabase.saveItem item (LocalDatabase.saveItem item db) =
  LocalDatabase.saveItem item db.
Proof. unfold LocalDatabase.saveItem. apply insert_insert_eq. Qed.

Lemma local_deleteItem_absent (itemId : string) (db : gmap string BucketItem) :
  db !! itemId = None -> LocalDatabase.deleteItem itemId db = db.
Proof. apply delete_id. Qed.

Lemma firebase_addItem_twice (col : gmap string BucketItem) :
  FirebaseCloudService.addItem userId item (FirebaseCloudService.addItem userId item col) =
  FirebaseCloudService.addItem userId item col.
Proof. unfold FirebaseCloudService.addItem. apply insert_insert_eq. Qed.

Lemma firebase_deleteItem_absent (itemId : string) (col : gmap string BucketItem) :
  col !! itemId = None -> FirebaseCloudService.deleteItem userId itemId col = col.
Proof. apply delete_id. Qed.

Lemma mock_getMockItems_saved (its : list BucketItem) (ls : gmap string (list BucketItem)) :
  MockCloudService.getMockItems userId (MockCloudService.saveMockItems userId its ls) = its.
Proof.
  unfold MockCloudService.getMockItems, MockCloudService.saveMockItems.
  rewrite lookup_insert_eq. reflexivity.
Qed.

Lemma mock_addItem_load (ls : gmap string (list BucketItem)) :
  MockCloudService.load userId (MockCloudService.addItem userId item ls) =
  set_userId (Some userId) item :: MockCloudService.load userId ls.
Proof.
  unfold MockCloudService.load, MockCloudService.addItem.
  apply mock_getMockItems_saved.
Qed.

Lemma mock_deleteItem_absent (itemId : string) (ls : gmap string (list BucketItem)) :
  (forall i, i ∈ MockCloudService.load userId ls -> id i <> itemId) ->
  MockCloudService.load userId (MockCloudService.deleteItem userId itemId ls) =
  MockCloudService.load userId ls.
Proof.
  unfold MockCloudService.load, MockCloudService.deleteItem.
  rewrite mock_getMockItems_saved.
  generalize (MockCloudService.getMockItems userId ls).
  induction l as [| x l IH]; intros Habs; [reflexivity |].
  rewrite filter_cons_True by (apply Habs; left).
  f_equal. apply IH. intros i Hi. apply Habs. right. exact Hi.
Qed.

End Stores.

(** C8, at the failing input: on the mock cloud backend a second [addItem]
    of the same item leaves two entries with the same id where one [addItem]
    leaves one; the storage after the second call is not the storage after
    the first. *)
Theorem mock_addItem_twice_duplicates :
  let once := MockCloudService.addItem "u1" cafe ∅ in
  let twice := MockCloudService.addItem "u1" cafe once in
  MockCloudService.load "u1" once = [set_userId (Some "u1") cafe] /\
  MockCloudService.load "u1" twice =
    [set_userId (Some "u1") cafe; set_userId (Some "u1") cafe] /\
  id <$> MockCloudService.load "u1" twice = ["b1e7"; "b1e7"] /\
  twice <> once.
Proof.
  intros once twice.
  assert (H1 : MockCloudService.load "u1" once = [set_userId (Some "u1") cafe]).
  { unfold once. rewrite mock_addItem_load. reflexivity. }
  assert (H2 : MockCloudService.load "u1" twice =
               [set_userId (Some "u1") cafe; set_userId (Some "u1") cafe]).
  { unfold twice. rewrite mock_addItem_load, H1. reflexivity. }
  split; [exact H1 |]. split; [exact H2 |]. split.
  - rewrite H2. reflexivity.
  - intros Heq. rewrite Heq, H1 in H2. discriminate H2.
Qed.

(** * Further properties of the code *)

(** ** The evaluator *)

Lemma latched_not_due loc item : ~ due loc (latched loc item).
Proof.
  unfold latched. destruct (decide (due loc item)) as [Hd | Hd]; [| exact Hd].
  intros (_ & Hn & _). discriminate Hn.
Qed.

Lemma latched_latched loc item : latched loc (latched loc item) = latched loc item.
Proof.
  unfold latched at 1. rewrite decide_False; [reflexivity | apply latched_not_due].
Qed.

Lemma filter_due_latched loc (l : list BucketItem) :
  filter (due loc) (latched loc <$> l) = [].
Proof.
  induction l as [| x l IH]; [reflexivity |].
  rewrite fmap_cons, filter_cons_False by apply latched_not_due. exact IH.
Qed.

(** X1. Evaluating the same sample a second time, on what the first
    evaluation returned, changes no item and adds nothing to the alert log:
    no further call of [sendNotification], no further notification. *)
Theorem evaluation_is_idempotent
    (perm : NotificationPermission) (throws : Notification -> bool)
    (sample : GeoLocation) (its : list BucketItem) (log : AlertLog) :
  let first := proximityUpdater perm throws sample its log in
  let second := proximityUpdater perm throws sample (fst first) (snd first) in
  fst second = fst first /\ snd second = snd first.
Proof.
  intros first second. unfold second.
  assert (Hits : fst first = latched sample <$> its)
    by apply proximityUpdater_items.
  split.
  - rewrite proximityUpdater_items, Hits, <- list_fmap_compose.
    apply list_fmap_ext. intros i x _. apply latched_latched.
  - pose proof (proximityUpdater_calls perm throws sample (fst first) (snd first)) as Hc.
    destruct (proximityUpdater_shown_sublist perm throws sample (fst first) (snd first))
      as (sh & Hs & Hsub).
    assert (Hf : filter (due sample) (fst first) = [])
      by (rewrite Hits; apply filter_due_latched).
    rewrite Hf in Hc, Hsub.
    rewrite app_nil_r in Hc. apply sublist_nil_r in Hsub. subst sh.
    rewrite app_nil_r in Hs.
    destruct (proximityUpdater perm throws sample (fst first) (snd first)) as [its2 log2].
    destruct (snd first) as [c1 n1]. destruct log2 as [c2 n2].
    simpl in *. congruence.
Qed.

(** X2. The card of an item that is neither completed nor notified shows the
    nearby highlight for a current location exactly when an evaluation of
    that location latches the item; without a current location no card is
    highlighted. *)
Theorem nearby_highlight_agrees_with_evaluator
    (perm : NotificationPermission) (throws : Notification -> bool)
    (loc : GeoLocation) (item : BucketItem) (log : AlertLog) :
  BucketCard.isNearby item None = false /\
  (completed item = false -> notified item = false ->
   (BucketCard.isNearby item (Some loc) = true <->
    fst (proximityUpdater perm throws loc [item] log) = [set_notified true item])).
Proof.
  split; [reflexivity |]. intros Hc Hn.
  rewrite proximityUpdater_items. simpl.
  unfold BucketCard.isNearby, BucketCard.distance, latched.
  destruct (Rlt_dec _ 2000) as [Hlt | Hge].
  - rewrite decide_True by (repeat split; assumption). tauto.
  - rewrite decide_False by (intros (_ & _ & Hd); exact (Hge Hd)).
    split; [discriminate |].
    intros Heq. injection Heq as Heq.
    apply (f_equal notified) in Heq. simpl in Heq. congruence.
Qed.

Lemma cafe_alone_latched perm throws log :
  fst (proximityUpdater perm throws cafeLocation [cafe] log) = [set_notified true cafe].
Proof.
  rewrite proximityUpdater_items. simpl. unfold latched.
  rewrite decide_True by exact cafe_due. reflexivity.
Qed.

(** X2, on the scenario: the card of the cafe at the cafe. *)
Lemma nearby_highlight_witness :
  BucketCard.isNearby cafe (Some cafeLocation) = true.
Proof.
  destruct (nearby_highlight_agrees_with_evaluator granted (fun _ => false)
              cafeLocation cafe noAlerts) as (_ & H).
  apply (H eq_refl eq_refl).
  apply cafe_alone_latched.
Defined.

(** ** The distance *)

Section DistanceBounds.
#[local] Open Scope R_scope.
Import Geo.

Lemma atan2_sin_cos (t : R) :
  0 <= t <= PI / 2 -> atan2 (sin t) (cos t) = t.
Proof.
  intros [Ht0 Ht1]. unfold atan2. pose proof PI_RGT_0 as Hpi.
  destruct Ht1 as [Hlt | ->].
  - assert (Hc : 0 < cos t) by (apply cos_gt_0; lra).
    destruct (total_order_T (cos t) 0) as [[H | H] | H]; try lra.
    change (sin t / cos t) with (tan t). apply atan_tan. lra.
  - rewrite cos_PI2, sin_PI2.
    destruct (total_order_T 0 0) as [[H | H] | H]; try lra.
    destruct (total_order_T 1 0) as [[H1 | H1] | H1]; lra.
Qed.

(** X4. Between two places of the same longitude whose latitudes differ by
    at most 180 degrees the distance is the length of the arc of the
    meridian: 6371000 m times the difference of the latitudes in radians. *)
Theorem distance_along_meridian (a b : GeoLocation) :
  lng a = lng b ->
  Rabs (lat b - lat a) <= 180 ->
  calculateDistance a b = 6371000 * (Rabs (lat b - lat a) * PI / 180).
Proof.
  intros Hlng Hlat. unfold calculateDistance. pose proof PI_RGT_0 as Hpi.
  rewrite Hlng.
  replace ((lng b - lng b) * PI / 180 / 2) with 0 by lra.
  rewrite sin_0.
  set (h := (lat b - lat a) * PI / 180 / 2).
  set (t := Rabs h).
  assert (Ht : 0 <= t <= PI / 2).
  { unfold t, h. split; [apply Rabs_pos |].
    replace ((lat b - lat a) * PI / 180 / 2) with ((lat b - lat a) * (PI / 360)) by lra.
    rewrite Rabs_mult, (Rabs_pos_eq (PI / 360)) by lra.
    apply Rle_trans with (180 * (PI / 360)); [| lra].
    apply Rmult_le_compat_r; [lra | exact Hlat]. }
  assert (Hsin : Rabs (sin h) = sin t).
  { unfold t. destruct (Rcase_abs h) as [Hneg | Hpos].
    - rewrite (Rabs_left h) by exact Hneg. rewrite sin_neg.
      apply Rabs_left1.
      assert (0 <= sin (- h)); [| rewrite sin_neg in *; lra].
      apply sin_ge_0; [lra |]. unfold t in Ht. rewrite Rabs_left in Ht by exact Hneg. lra.
    - rewrite (Rabs_right h) by exact Hpos.
      apply Rabs_pos_eq, sin_ge_0; [lra |].
      unfold t in Ht. rewrite Rabs_right in Ht by exact Hpos. lra. }
  assert (Hcos : Rabs (cos h) = cos t).
  { unfold t. destruct (Rcase_abs h) as [Hneg | Hpos].
    - rewrite (Rabs_left h) by exact Hneg. rewrite cos_neg.
      apply Rabs_pos_eq. unfold t in Ht. rewrite Rabs_left in Ht by exact Hneg.
      apply cos_ge_0; lra.
    - rewrite (Rabs_right h) by exact Hpos.
      apply Rabs_pos_eq. unfold t in Ht. rewrite Rabs_right in Ht by exact Hpos.
      apply cos_ge_0; lra. }
  replace (sin h * sin h + cos (lat a * PI / 180) * cos (lat b * PI / 180) * 0 * 0)
    with (Rsqr (sin h)) by (unfold Rsqr; lra).
  replace (1 - Rsqr (sin h)) with (Rsqr (cos h)) by (rewrite (cos2 h); reflexivity).
  rewrite !sqrt_Rsqr_abs, Hsin, Hcos, (atan2_sin_cos t Ht).
  unfold t, h.
  replace ((lat b - lat a) * PI / 180 / 2) with ((lat b - lat a) * (PI / 360)) by lra.
  rewrite Rabs_mult, (Rabs_pos_eq (PI / 360)) by lra. lra.
Qed.

(** X4, on the scenario: from the cafe one degree to the north. *)
Lemma distance_along_meridian_witness :
  calculateDistance cafeLocation {| lat := 14; lng := 80 |} =
  6371000 * (Rabs (14 - 13) * PI / 180).
Proof.
  apply (distance_along_meridian cafeLocation {| lat := 14; lng := 80 |}).
  - reflexivity.
  - simpl. rewrite Rabs_pos_eq; lra.
Defined.

End DistanceBounds.

(** ** The handlers of the list, in local mode *)

Lemma replace_by_id_ids (k : string) (u : BucketItem) (l : list BucketItem) :
  id u = k ->
  id <$> map (fun i => if decide (id i = k) then u else i) l = id <$> l.
Proof.
  intros Hu. change (map ?f l) with (f <$> l). rewrite <- list_fmap_compose.
  apply list_fmap_ext. intros i x _. simpl.
  destruct (decide (id x = k)); congruence.
Qed.

Lemma replace_by_id_lookup (k : string) (u : BucketItem) (l : list BucketItem) (i : nat) x :
  l !! i = Some x ->
  map (fun i => if decide (id i = k) then u else i) l !! i =
  Some (if decide (id x = k) then u else x).
Proof.
  intros Hi. change (map ?f l) with (f <$> l).
  rewrite list_lookup_fmap, Hi. reflexivity.
Qed.

Lemma find_by_id (k : string) (l : list BucketItem) x :
  NoDup (id <$> l) -> x ∈ l -> id x = k ->
  find (fun i => bool_decide (id i = k)) l = Some x.
Proof.
  intros Hnd Hx Hk.
  destruct (find _ l) as [y |] eqn:Hf.
  - apply find_some in Hf as [Hin Hy].
    apply list_elem_of_In in Hin. apply bool_decide_eq_true in Hy.
    f_equal. apply (NoDup_fmap_inj_on id l); congruence || assumption.
  - pose proof (find_none _ _ Hf x (proj1 (list_elem_of_In _ _) Hx)) as Hn.
    apply bool_decide_eq_false in Hn. contradiction.
Qed.

Lemma find_by_id_absent (k : string) (l : list BucketItem) :
  (forall x, x ∈ l -> id x <> k) ->
  find (fun i => bool_decide (id i = k)) l = None.
Proof.
  intros Habs. destruct (find _ l) as [y |] eqn:Hf; [| reflexivity].
  apply find_some in Hf as [Hin Hy].
  apply list_elem_of_In in Hin. apply bool_decide_eq_true in Hy.
  exfalso. exact (Habs y Hin Hy).
Qed.

Lemma toggleComplete_atomic (itemId : string) (now : Z) (s : App) :
  toggleComplete itemId now s =
  toggleComplete_interleaved itemId now (fun s0 => s0) s.
Proof.
  unfold toggleComplete, toggleComplete_interleaved, toggleComplete_request,
    toggleComplete_resume.
  destruct (find _ (items s)); [| reflexivity].
  destruct (user s); reflexivity.
Qed.

(** X5. In local mode, with unique ids, [toggleComplete] writes a copy of the
    item as it was on the list of its render: [completed] flipped,
    [completedAt] the time of the call when the copy is completed and absent
    when it is not, every other field, [notified] included, as on that list.
    The copy goes to the database at once and, after the [await], replaces
    the entry of that id on the list of that time, whatever the page did to
    the entry during the [await], as long as the ids kept their places; the
    other entries of that list are kept. So when an evaluation latches the
    item during the [await], the latch is gone again when the handler has
    finished. For an id that is not on the list the handler does nothing. *)
Theorem toggleComplete_writes_the_copy_of_its_render
    (s : App) (i : nat) (item : BucketItem) (now : Z) :
  user s = None -> NoDup (id <$> items s) -> items s !! i = Some item ->
  (exists item',
     toggleComplete_request (id item) now s =
       (set_localDB (LocalDatabase.saveItem item' (localDB s)) s, Some item') /\
     completed item' = negb (completed item) /\
     completedAt item' = (if completed item then None else Some now) /\
     notified item' = notified item /\ id item' = id item /\
     title item' = title item /\ description item' = description item /\
     targetLocation item' = targetLocation item /\
     category item' = category item /\ interest item' = interest item /\
     createdAt item' = createdAt item /\ userId item' = userId item /\
     forall between : App -> App,
       (forall s0, id <$> items (between s0) = id <$> items s0) ->
       let s' := toggleComplete_interleaved (id item) now between s in
       items s' !! i = Some item' /\
       (forall j x, j <> i ->
          items (between (fst (toggleComplete_request (id item) now s))) !! j = Some x ->
          items s' !! j = Some x)) /\
  (forall loc,
     completed item = false -> notified item = false ->
     (Geo.calculateDistance loc (targetLocation item) < 2000)%R ->
     notified <$>
       items (checkProximity loc (fst (toggleComplete_request (id item) now s))) !! i =
       Some true /\
     notified <$>
       items (toggleComplete_interleaved (id item) now (checkProximity loc) s) !! i =
       Some false) /\
  (forall k now' between,
     (forall x, x ∈ items s -> id x <> k) ->
     toggleComplete_interleaved k now' between s = between s).
Proof.
  intros Hu Hnd Hi.
  assert (Hin : item ∈ items s) by (apply list_elem_of_lookup; eauto).
  assert (Hreq : toggleComplete_request (id item) now s =
                 (set_localDB (LocalDatabase.saveItem (toggled item now) (localDB s)) s,
                  Some (toggled item now))).
  { unfold toggleComplete_request.
    rewrite (find_by_id (id item) (items s) item Hnd Hin eq_refl), Hu. reflexivity. }
  assert (Hbetween : forall between : App -> App,
            (forall s0, id <$> items (between s0) = id <$> items s0) ->
            items (toggleComplete_interleaved (id item) now between s) !! i =
              Some (toggled item now) /\
            (forall j x, j <> i ->
               items (between (fst (toggleComplete_request (id item) now s))) !! j = Some x ->
               items (toggleComplete_interleaved (id item) now between s) !! j = Some x)).
  { intros between Hids. unfold toggleComplete_interleaved. rewrite Hreq.
    unfold toggleComplete_resume. simpl.
    set (s1 := set_localDB (LocalDatabase.saveItem (toggled item now) (localDB s)) s) in *.
    assert (Hsame : id <$> items (between s1) = id <$> items s)
      by (rewrite Hids; reflexivity).
    split.
    - assert (Hk : (id <$> items (between s1)) !! i = Some (id item))
        by (rewrite Hsame, list_lookup_fmap, Hi; reflexivity).
      rewrite list_lookup_fmap in Hk.
      destruct (items (between s1) !! i) as [x |] eqn:Hx; [| discriminate].
      simpl in Hk. injection Hk as Hk.
      rewrite (replace_by_id_lookup _ _ _ _ _ Hx), decide_True by exact Hk.
      reflexivity.
    - intros j x Hj Hx.
      rewrite (replace_by_id_lookup _ _ _ _ _ Hx).
      destruct (decide (id x = id item)) as [He | He]; [| reflexivity].
      exfalso. apply Hj.
      apply (NoDup_lookup (id <$> items s) j i (id x) Hnd).
      + rewrite <- Hsame, list_lookup_fmap, Hx. reflexivity.
      + rewrite list_lookup_fmap, Hi, He. reflexivity. }
  split; [| split].
  - exists (toggled item now). split; [exact Hreq |].
    destruct (completed item) eqn:Hc; simpl; rewrite ?Hc;
      repeat (split; [reflexivity |]); exact Hbetween.
  - intros loc Hc Hn Hd. split.
    + rewrite Hreq. simpl. rewrite checkProximity_latches. simpl.
      rewrite list_lookup_fmap, Hi. simpl. unfold latched.
      rewrite decide_True by (repeat split; assumption). reflexivity.
    + destruct (Hbetween (checkProximity loc)) as (Hlook & _).
      { intros s0. rewrite checkProximity_latches. apply ids_latched. }
      rewrite Hlook. simpl. rewrite Hn. reflexivity.
  - intros k now' between Habs.
    unfold toggleComplete_interleaved, toggleComplete_request.
    rewrite (find_by_id_absent k (items s) Habs). reflexivity.
Qed.

Lemma cafeApp_ids : NoDup (id <$> items cafeApp).
Proof. simpl. apply NoDup_singleton. Qed.

(** X5, on the scenario: the cafe is ticked off while a fix at the cafe
    comes in. *)
Lemma toggleComplete_witness :
  notified <$>
    items (toggleComplete_interleaved (id cafe) 1700000100000
             (checkProximity cafeLocation) cafeApp) !! 0%nat = Some false.
Proof.
  destruct (toggleComplete_writes_the_copy_of_its_render cafeApp 0 cafe 1700000100000
              eq_refl cafeApp_ids eq_refl) as (_ & H & _).
  apply (H cafeLocation eq_refl eq_refl).
  simpl. rewrite calculateDistance_self. lra.
Defined.

Lemma filter_other_ids (k : string) (l : list BucketItem) :
  (forall x, x ∈ l -> id x <> k) -> filter (fun x => id x <> k) l = l.
Proof.
  induction l as [| x l IH]; intros Habs; [reflexivity |].
  rewrite filter_cons_True by (apply Habs; left).
  f_equal. apply IH. intros y Hy. apply Habs. right. exact Hy.
Qed.

(** X6. In local mode [deleteItem] leaves no item of the given id on the list
    and none in the database; the items of other ids stay on the list, in
    their order, and in the database. When the id is neither on the list nor
    in the database the state is what it was. *)
Theorem deleteItem_removes_exactly_the_id (s : App) (k : string) :
  user s = None ->
  let s' := deleteItem k s in
  (forall x, x ∈ items s' -> id x <> k) /\
  localDB s' !! k = None /\
  items s' = filter (fun x => id x <> k) (items s) /\
  (forall x, x ∈ items s -> id x <> k -> x ∈ items s') /\
  (forall j, j <> k -> localDB s' !! j = localDB s !! j) /\
  ((forall x, x ∈ items s -> id x <> k) -> localDB s !! k = None -> s' = s).
Proof.
  intros Hu s'.
  assert (Hs' : s' = set_items (filter (fun x => id x <> k) (items s))
                       (set_localDB (LocalDatabase.deleteItem k (localDB s)) s)).
  { unfold s', deleteItem. rewrite Hu. reflexivity. }
  rewrite Hs'. simpl. unfold LocalDatabase.deleteItem.
  split; [| split; [| split; [| split; [| split]]]].
  - intros x Hx. apply list_elem_of_filter in Hx. tauto.
  - apply lookup_delete_eq.
  - reflexivity.
  - intros x Hx Hk. apply list_elem_of_filter. tauto.
  - intros j Hj. apply lookup_delete_ne. congruence.
  - intros Habs Hnone. rewrite (filter_other_ids k _ Habs), (delete_id _ _ Hnone).
    destruct s. reflexivity.
Qed.

(** X6, on the scenario: the cafe is deleted. *)
Lemma deleteItem_witness :
  items (deleteItem (id cafe) cafeApp) = [] /\
  localDB (deleteItem (id cafe) cafeApp) !! id cafe = None.
Proof.
  destruct (deleteItem_removes_exactly_the_id cafeApp (id cafe) eq_refl)
    as (_ & Hdb & Hits & _).
  split; [| exact Hdb].
  rewrite Hits. simpl. rewrite filter_cons_False by (intros H; apply H; reflexivity).
  reflexivity.
Defined.

Lemma inStep_ext (s1 s2 : App) :
  user s2 = user s1 -> items s2 = items s1 -> localDB s2 = localDB s1 ->
  inStep s1 -> inStep s2.
Proof. unfold inStep. intros -> -> ->. tauto. Qed.

Lemma inStep_replace (s : App) (u : BucketItem) (k : string) :
  inStep s -> id u = k -> k ∈ (id <$> items s) ->
  inStep (set_items (map (fun i => if decide (id i = k) then u else i) (items s))
            (set_localDB (LocalDatabase.saveItem u (localDB s)) s)).
Proof.
  intros (Hu & Hnd & Hmem & Hdb) Hk Hin. unfold inStep, LocalDatabase.saveItem. simpl.
  rewrite (replace_by_id_ids k u _ Hk), Hk.
  split; [exact Hu |]. split; [exact Hnd |]. split.
  - intros x' Hx'. change (map ?f ?l) with (f <$> l) in Hx'.
    apply list_elem_of_fmap in Hx' as (x & -> & Hx).
    destruct (decide (id x = k)) as [He | He].
    + exists u. rewrite Hk, lookup_insert_eq. auto.
    + destruct (Hmem x Hx) as (y & Hy & Hsame).
      exists y. rewrite lookup_insert_ne by congruence. auto.
  - intros j y Hj. destruct (decide (k = j)) as [<- | Hne]; [exact Hin |].
    rewrite lookup_insert_ne in Hj by exact Hne. exact (Hdb j y Hj).
Qed.

(** X7. In local mode the handlers keep memory and database in step: when
    the ids on the list are unique, every listed item is stored under its id
    (the same up to [notified]) and nothing else is stored, then this holds
    again after a proximity evaluation, after [toggleComplete], after
    [deleteItem], after [handleSaveItem] adds an item under an id that is not
    on the list, and after [handleSaveItem] saves the edit of an item whose
    id is on the list. *)
Theorem local_handlers_keep_memory_and_store_in_step (s : App) :
  inStep s ->
  (forall loc, inStep (checkProximity loc s)) /\
  (forall k now, inStep (toggleComplete k now s)) /\
  (forall k, inStep (deleteItem k s)) /\
  (forall title' category' interest' location description' uuid now,
     editingItem s = None -> uuid ∉ (id <$> items s) ->
     inStep (handleSaveItem title' category' interest' location description' uuid now s)) /\
  (forall title' category' interest' location description' uuid now e,
     editingItem s = Some e -> id e ∈ (id <$> items s) ->
     inStep (handleSaveItem title' category' interest' location description' uuid now s)).
Proof.
  intros Hstep. pose proof Hstep as (Hu & Hnd & Hmem & Hdb).
  split; [| split; [| split; [| split]]].
  - (* evaluation *)
    intros loc. destruct (checkProximity_stores loc s) as (Hl & _ & Hus).
    unfold inStep. rewrite Hus, Hl, checkProximity_latches, ids_latched.
    split; [exact Hu |]. split; [exact Hnd |]. split; [| exact Hdb].
    intros x' Hx'. apply list_elem_of_fmap in Hx' as (x & -> & Hx).
    destruct (Hmem x Hx) as (y & Hy & Hsame).
    exists y. rewrite id_latched. split; [exact Hy |].
    rewrite Hsame. unfold latched. destruct (decide _); reflexivity.
  - (* toggleComplete *)
    intros k now. unfold toggleComplete.
    destruct (find _ (items s)) as [item |] eqn:Hf; [| exact Hstep].
    apply find_some in Hf as [Hin Hk].
    apply list_elem_of_In in Hin. apply bool_decide_eq_true in Hk.
    rewrite Hu. apply (inStep_replace s (toggled item now) k Hstep Hk).
    rewrite <- Hk. apply list_elem_of_fmap_2. exact Hin.
  - (* deleteItem *)
    intros k. unfold deleteItem. rewrite Hu.
    unfold inStep, LocalDatabase.deleteItem. simpl.
    split; [exact Hu |]. split; [| split].
    + eapply sublist_NoDup; [exact Hnd | apply fmap_sublist, sublist_filter].
    + intros x Hx. apply list_elem_of_filter in Hx as [Hk Hx].
      destruct (Hmem x Hx) as (y & Hy & Hsame).
      exists y. rewrite lookup_delete_ne by congruence. auto.
    + intros j y Hj.
      destruct (decide (k = j)) as [<- | Hne];
        [rewrite lookup_delete_eq in Hj; discriminate |].
      rewrite lookup_delete_ne in Hj by exact Hne.
      apply Hdb in Hj. apply list_elem_of_fmap in Hj as (x & -> & Hx).
      apply list_elem_of_fmap_2, list_elem_of_filter. split; [congruence | exact Hx].
  - (* a new item *)
    intros title' category' interest' location description' uuid now He Hfresh.
    unfold handleSaveItem. rewrite He, Hu.
    unfold inStep, LocalDatabase.saveItem. simpl.
    split; [exact Hu |]. split; [| split].
    + apply NoDup_cons. split; assumption.
    + intros x Hx. apply elem_of_cons in Hx as [-> | Hx].
      * eexists. simpl. rewrite lookup_insert_eq. split; reflexivity.
      * destruct (Hmem x Hx) as (y & Hy & Hsame).
        exists y. rewrite lookup_insert_ne; [auto |].
        intros Heq. apply Hfresh. rewrite Heq. apply list_elem_of_fmap_2. exact Hx.
    + intros j y Hj. destruct (decide (uuid = j)) as [<- | Hne]; [left |].
      rewrite lookup_insert_ne in Hj by exact Hne. right. exact (Hdb j y Hj).
  - (* the edit of a listed item *)
    intros title' category' interest' location description' uuid now e He Hin.
    unfold handleSaveItem. rewrite He, Hu.
    eapply inStep_ext;
      [| | | apply (inStep_replace s
                     (edited e title' category' interest' location description')
                     (id e) Hstep eq_refl Hin)];
      reflexivity.
Qed.

Lemma cafeApp_inStep : inStep cafeApp.
Proof.
  unfold inStep, cafeApp, LocalDatabase.saveItem. simpl.
  split; [reflexivity |]. split; [apply NoDup_singleton |]. split.
  - intros x Hx. apply list_elem_of_singleton in Hx as ->.
    exists cafe. rewrite lookup_insert_eq. auto.
  - intros k y Hk. apply lookup_insert_Some in Hk as [[<- _] | [_ Hk]].
    + apply list_elem_of_singleton. reflexivity.
    + rewrite lookup_empty in Hk. discriminate.
Qed.

(** X7, on the scenario: the cafe is latched by an evaluation; list and
    database still agree up to the flag. *)
Lemma local_handlers_in_step_witness : inStep (checkProximity cafeLocation cafeApp).
Proof.
  destruct (local_handlers_keep_memory_and_store_in_step cafeApp cafeApp_inStep)
    as (H & _).
  apply H.
Defined.

(** ** The mock cloud backend *)

Section MockStore.

Variable ls : gmap string (list BucketItem).
Variable userId : string.

Lemma mock_load_other (other : string) (its : list BucketItem) :
  other <> userId ->
  MockCloudService.load other (MockCloudService.saveMockItems userId its ls) =
  MockCloudService.load other ls.
Proof.
  intros Hne. unfold MockCloudService.load, MockCloudService.getMockItems,
    MockCloudService.saveMockItems.
  rewrite lookup_insert_ne by congruence. reflexivity.
Qed.

Lemma mock_updateItem_load (item : BucketItem) :
  MockCloudService.load userId (MockCloudService.updateItem userId item ls) =
  map (fun i => if decide (id i = id item) then item else i)
    (MockCloudService.load userId ls).
Proof.
  unfold MockCloudService.load, MockCloudService.updateItem.
  apply mock_getMockItems_saved.
Qed.

Lemma mock_deleteItem_load (itemId : string) :
  MockCloudService.load userId (MockCloudService.deleteItem userId itemId ls) =
  filter (fun i => id i <> itemId) (MockCloudService.load userId ls).
Proof.
  unfold MockCloudService.load, MockCloudService.deleteItem.
  apply mock_getMockItems_saved.
Qed.

End MockStore.

(** X8. On the mock backend the list of one user is not touched by what
    another user adds, updates or deletes. *)
Theorem mock_users_are_isolated
    (ls : gmap string (list BucketItem)) (userId other : string)
    (item : BucketItem) (itemId : string) :
  other <> userId ->
  MockCloudService.load other (MockCloudService.addItem userId item ls) =
    MockCloudService.load other ls /\
  MockCloudService.load other (MockCloudService.updateItem userId item ls) =
    MockCloudService.load other ls /\
  MockCloudService.load other (MockCloudService.deleteItem userId itemId ls) =
    MockCloudService.load other ls.
Proof.
  intros Hne. repeat split; apply mock_load_other; exact Hne.
Qed.

(** X8, on the scenario. *)
Lemma mock_users_isolated_witness :
  MockCloudService.load "u2" (MockCloudService.addItem "u1" cafe ∅) = [].
Proof.
  destruct (mock_users_are_isolated ∅ "u1" "u2" cafe "b1e7") as (H & _).
  - discriminate.
  - rewrite H. reflexivity.
Defined.

(** X9. [updateItem] of the mock backend never adds an entry: the ids of the
    stored list, and with them its length and order, are what they were;
    every entry that has the id of the item is the item afterwards and every
    other entry is kept; when no entry has the id the list is unchanged. *)
Theorem mock_updateItem_replaces_in_place
    (ls : gmap string (list BucketItem)) (userId : string) (item : BucketItem) :
  let before := MockCloudService.load userId ls in
  let after := MockCloudService.load userId (MockCloudService.updateItem userId item ls) in
  id <$> after = id <$> before /\
  (forall i x, before !! i = Some x ->
     after !! i = Some (if decide (id x = id item) then item else x)) /\
  ((forall x, x ∈ before -> id x <> id item) -> after = before).
Proof.
  intros before after. unfold after. rewrite mock_updateItem_load. fold before.
  split; [apply replace_by_id_ids; reflexivity |]. split.
  - intros i x Hi. apply replace_by_id_lookup. exact Hi.
  - intros Habs. induction before as [| x l IH]; [reflexivity |]. simpl.
    rewrite decide_False by (apply Habs; left).
    f_equal. apply IH. intros y Hy. apply Habs. right. exact Hy.
Qed.

(** X10. [deleteItem] of the mock backend removes every entry of the given
    id, also the duplicates that repeated [addItem] leaves, and keeps the
    others in order; after [addItem] of an item whose id was not stored it
    gives back the list of before. *)
Theorem mock_deleteItem_undoes_addItem
    (ls : gmap string (list BucketItem)) (userId : string) (item : BucketItem) :
  (forall x,
     x ∈ MockCloudService.load userId
           (MockCloudService.deleteItem userId (id item)
              (MockCloudService.addItem userId item
                 (MockCloudService.addItem userId item ls))) ->
     id x <> id item) /\
  ((forall x, x ∈ MockCloudService.load userId ls -> id x <> id item) ->
   MockCloudService.load userId
     (MockCloudService.deleteItem userId (id item)
        (MockCloudService.addItem userId item ls)) =
   MockCloudService.load userId ls).
Proof.
  split.
  - intros x Hx. rewrite mock_deleteItem_load in Hx.
    apply list_elem_of_filter in Hx. tauto.
  - intros Habs. rewrite mock_deleteItem_load, mock_addItem_load.
    rewrite filter_cons_False by (simpl; intros H; apply H; reflexivity).
    apply filter_other_ids. exact Habs.
Qed.

(** X10, on the scenario. *)
Lemma mock_deleteItem_witness :
  MockCloudService.load "u1"
    (MockCloudService.deleteItem "u1" (id cafe) (MockCloudService.addItem "u1" cafe ∅)) = [].
Proof.
  destruct (mock_deleteItem_undoes_addItem ∅ "u1" cafe) as (_ & H).
  rewrite H; [reflexivity |].
  intros x Hx. inversion Hx.
Defined.

(** X9, on the scenario: the park is updated where only the cafe is stored. *)
Lemma mock_updateItem_witness :
  MockCloudService.load "u1"
    (MockCloudService.updateItem "u1" park (MockCloudService.addItem "u1" cafe ∅)) =
  MockCloudService.load "u1" (MockCloudService.addItem "u1" cafe ∅).
Proof.
  destruct (mock_updateItem_replaces_in_place
              (MockCloudService.addItem "u1" cafe ∅) "u1" park) as (_ & _ & H).
  apply H. intros x Hx. rewrite mock_addItem_load in Hx.
  apply list_elem_of_singleton in Hx as ->. discriminate.
Defined.

(** ** Cloud mode *)

Lemma checkProximity_calls loc s :
  sendNotificationCalls (alerts (checkProximity loc s)) =
  sendNotificationCalls (alerts s) ++ filter (due loc) (items s).
Proof. rewrite checkProximity_alerts. apply proximityUpdater_calls. Qed.

Lemma cloudSnapshot_fields s u :
  user s = Some u ->
  items (cloudSnapshot s) = MockCloudService.load (uid u) (mockStorage s) /\
  alerts (cloudSnapshot s) = alerts s /\
  mockStorage (cloudSnapshot s) = mockStorage s.
Proof. intros Hu. unfold cloudSnapshot. rewrite Hu. repeat split; reflexivity. Qed.

(** X11. In cloud mode the latch does not survive a delivery of the
    subscription: an evaluation latches the due items in memory only, the
    next delivery puts the stored list back, and an evaluation of the same
    sample then calls [sendNotification] for every due item a second time. *)
Theorem cloud_snapshot_forgets_the_latch (s : App) (u : User) (loc : GeoLocation) :
  user s = Some u ->
  items s = MockCloudService.load (uid u) (mockStorage s) ->
  let s1 := checkProximity loc s in
  let s2 := cloudSnapshot s1 in
  let s3 := checkProximity loc s2 in
  items s1 = latched loc <$> items s /\
  items s2 = items s /\
  sendNotificationCalls (alerts s3) =
    sendNotificationCalls (alerts s) ++
    filter (due loc) (items s) ++ filter (due loc) (items s).
Proof.
  intros Hu Hsync s1 s2 s3.
  destruct (checkProximity_stores loc s) as (_ & Hcloud & Hus).
  destruct (cloudSnapshot_fields s1 u) as (Hi2 & Ha2 & _).
  { unfold s1. rewrite Hus. exact Hu. }
  assert (H2 : items s2 = items s).
  { unfold s2. rewrite Hi2. unfold s1. rewrite Hcloud. symmetry. exact Hsync. }
  split; [apply checkProximity_latches |]. split; [exact H2 |].
  unfold s3. rewrite checkProximity_calls, H2.
  unfold s2. rewrite Ha2. unfold s1. rewrite checkProximity_calls.
  rewrite <- app_assoc. reflexivity.
Qed.

Lemma filter_due_cafe_cloud :
  filter (due cafeLocation) [set_userId (Some "u1") cafe] = [set_userId (Some "u1") cafe].
Proof.
  rewrite filter_cons_True; [reflexivity |].
  destruct cafe_due as (Hc & Hn & Hd). repeat split; assumption.
Qed.

(** X11, on the scenario: the cafe is alerted twice. *)
Lemma cloud_snapshot_witness :
  sendNotificationCalls
    (alerts (checkProximity cafeLocation
               (cloudSnapshot (checkProximity cafeLocation cloudApp)))) =
  [set_userId (Some "u1") cafe; set_userId (Some "u1") cafe].
Proof.
  destruct (cloud_snapshot_forgets_the_latch cloudApp cloudUser cafeLocation eq_refl)
    as (_ & _ & H).
  - unfold cloudApp. simpl. rewrite mock_addItem_load. reflexivity.
  - rewrite H. simpl. rewrite filter_due_cafe_cloud. reflexivity.
Defined.




(** X12. In cloud mode the handlers write the stored list of the user and
    nothing else: the list in memory and the local database are as before.
    The next delivery of the subscription shows the effect: after
    [deleteItem] no entry of the id, after [toggleComplete] and after the
    save of an edit the same ids as stored before, after the save of a new
    item that item, first, with [completed] and [notified] off and the id of
    the user on it. *)
Theorem cloud_handlers_write_the_storage_only (s : App) (u : User) :
  user s = Some u ->
  (forall k now,
     items (toggleComplete k now s) = items s /\
     localDB (toggleComplete k now s) = localDB s /\
     id <$> items (cloudSnapshot (toggleComplete k now s)) =
       id <$> MockCloudService.load (uid u) (mockStorage s)) /\
  (forall k,
     items (deleteItem k s) = items s /\
     localDB (deleteItem k s) = localDB s /\
     forall x, x ∈ items (cloudSnapshot (deleteItem k s)) -> id x <> k) /\
  (forall title' category' interest' location description' uuid now,
     let s' := handleSaveItem title' category' interest' location description' uuid now s in
     items s' = items s /\ localDB s' = localDB s /\
     (forall e, editingItem s = Some e ->
        id <$> items (cloudSnapshot s') =
          id <$> MockCloudService.load (uid u) (mockStorage s)) /\
     (editingItem s = None ->
        exists item,
          items (cloudSnapshot s') =
            item :: MockCloudService.load (uid u) (mockStorage s) /\
          id item = uuid /\ title item = title' /\ createdAt item = now /\
          completed item = false /\ notified item = false /\
          userId item = Some (uid u))).
Proof.
  intros Hu. split; [| split].
  - intros k now. unfold toggleComplete.
    destruct (find _ (items s)) as [item |] eqn:Hf.
    + rewrite Hu. simpl. do 2 (split; [reflexivity |]).
      unfold cloudSnapshot. simpl. rewrite Hu. simpl.
      rewrite mock_updateItem_load. apply replace_by_id_ids. reflexivity.
    + do 2 (split; [reflexivity |]).
      unfold cloudSnapshot. rewrite Hu. reflexivity.
  - intros k. unfold deleteItem. rewrite Hu. simpl.
    do 2 (split; [reflexivity |]).
    unfold cloudSnapshot. simpl. rewrite Hu. simpl.
    intros x Hx. rewrite mock_deleteItem_load in Hx.
    apply list_elem_of_filter in Hx. tauto.
  - intros title' category' interest' location description' uuid now s'.
    unfold s', handleSaveItem.
    destruct (editingItem s) as [e |] eqn:He; rewrite Hu; simpl.
    + do 2 (split; [reflexivity |]). split; [| discriminate].
      intros e' _. unfold cloudSnapshot. simpl. rewrite Hu. simpl.
      rewrite mock_updateItem_load. apply replace_by_id_ids. reflexivity.
    + do 2 (split; [reflexivity |]). split; [discriminate |].
      intros _. unfold cloudSnapshot. simpl. rewrite Hu. simpl.
      rewrite mock_addItem_load. eexists. split; [reflexivity |].
      simpl. repeat split; reflexivity.
Qed.

(** X12, on the scenario: the user deletes the cafe. *)
Lemma cloud_handlers_witness :
  items (deleteItem (id cafe) cloudApp) = items cloudApp.
Proof.
  destruct (cloud_handlers_write_the_storage_only cloudApp cloudUser eq_refl)
    as (_ & H & _).
  apply (H (id cafe)).
Defined.

(** ** Backup export and import *)

Lemma put_all_lookup (its : list BucketItem) (db0 : gmap string BucketItem) (k : string) :
  fold_left (fun st item => <[id item := item]> st) its db0 !! k =
  match last (filter (fun x => id x = k) its) with
  | Some x => Some x
  | None => db0 !! k
  end.
Proof.
  induction its as [| x its IH] using rev_ind; [reflexivity |].
  rewrite fold_left_app, filter_app. simpl.
  destruct (decide (id x = k)) as [He | He].
  - rewrite filter_cons_True, filter_nil by exact He.
    rewrite last_snoc, He. apply lookup_insert_eq.
  - rewrite filter_cons_False, filter_nil, app_nil_r by exact He.
    rewrite lookup_insert_ne by exact He. exact IH.
Qed.

Lemma keyedById_saveItem item db :
  keyedById db -> keyedById (LocalDatabase.saveItem item db).
Proof.
  intros Hk k x Hx. unfold LocalDatabase.saveItem in Hx.
  apply lookup_insert_Some in Hx as [[<- <-] | [_ Hx]]; [reflexivity |].
  exact (Hk k x Hx).
Qed.

Lemma getAllItems_elem (db : gmap string BucketItem) x :
  keyedById db -> (x ∈ LocalDatabase.getAllItems db <-> db !! id x = Some x).
Proof.
  intros Hk. unfold LocalDatabase.getAllItems. split.
  - intros Hx. apply list_elem_of_fmap in Hx as ([k y] & -> & Hky).
    apply elem_of_map_to_list in Hky. simpl.
    rewrite (Hk k y Hky). exact Hky.
  - intros Hx. apply list_elem_of_fmap. exists (id x, x).
    split; [reflexivity |]. apply elem_of_map_to_list. exact Hx.
Qed.

Lemma getAllItems_ids (db : gmap string BucketItem) :
  keyedById db -> id <$> LocalDatabase.getAllItems db = (map_to_list db).*1.
Proof.
  intros Hk. unfold LocalDatabase.getAllItems.
  rewrite <- list_fmap_compose. apply list_fmap_ext.
  intros i [k x] Hi. simpl. apply Hk, elem_of_map_to_list.
  apply list_elem_of_lookup. eauto.
Qed.

Lemma getAllItems_NoDup (db : gmap string BucketItem) :
  keyedById db -> NoDup (id <$> LocalDatabase.getAllItems db).
Proof.
  intros Hk. rewrite (getAllItems_ids db Hk). apply NoDup_fst_map_to_list.
Qed.

Lemma put_all_getAllItems (db : gmap string BucketItem) :
  keyedById db ->
  fold_left (fun st item => <[id item := item]> st) (LocalDatabase.getAllItems db) ∅ = db.
Proof.
  intros Hk. apply map_eq. intros k. rewrite put_all_lookup, lookup_empty.
  destruct (db !! k) as [x |] eqn:Hx.
  - assert (Hin : x ∈ filter (fun y => id y = k) (LocalDatabase.getAllItems db)).
    { apply list_elem_of_filter. split; [exact (Hk k x Hx) |].
      apply getAllItems_elem; [exact Hk |]. rewrite (Hk k x Hx). exact Hx. }
    destruct (last _) as [y |] eqn:Hl.
    + apply last_Some_elem_of, list_elem_of_filter in Hl as [Hy Hyin].
      apply (getAllItems_elem db y Hk) in Hyin. rewrite Hy in Hyin. congruence.
    + apply last_None in Hl. rewrite Hl in Hin. inversion Hin.
  - destruct (last _) as [y |] eqn:Hl; [| reflexivity].
    apply last_Some_elem_of, list_elem_of_filter in Hl as [Hy Hyin].
    apply (getAllItems_elem db y Hk) in Hyin. rewrite Hy in Hyin. congruence.
Qed.

(** X13. A backup exported from a database whose entries are stored under
    their ids is imported back to the same database, whatever the store
    holds at the time of the import; the dialog then shows the exported
    items and the exported custom lists. *)
Theorem export_then_import_restores_the_store
    (db : gmap string BucketItem) (buckets interests : list string) (now : Z) (s : App) :
  keyedById db ->
  let file := exportBackup buckets interests now db in
  snd (importBackup file (localDB s)) = db /\
  localDB (handleFileChange file s) = db /\
  items (handleFileChange file s) = LocalDatabase.getAllItems db /\
  customBuckets (handleFileChange file s) = buckets /\
  customInterests (handleFileChange file s) = interests.
Proof.
  intros Hk file. unfold file, exportBackup, handleFileChange, importBackup. simpl.
  rewrite (put_all_getAllItems db Hk). repeat split; reflexivity.
Qed.

Lemma keyedById_empty : keyedById ∅.
Proof. intros k x Hx. rewrite lookup_empty in Hx. discriminate. Qed.

(** X13, on the scenario: the database of the cafe, exported and imported
    into an empty application. *)
Lemma export_then_import_witness :
  localDB (handleFileChange
             (exportBackup ["Food"] ["Chill"] 1700000200000 (localDB cafeApp))
             initialApp) = localDB cafeApp.
Proof.
  destruct (export_then_import_restores_the_store (localDB cafeApp) ["Food"] ["Chill"]
              1700000200000 initialApp) as (_ & H & _).
  - apply keyedById_saveItem, keyedById_empty.
  - exact H.
Defined.

(** X14. The import of a document whose [items] is an array of entries that
    all carry an id replaces the object store: under an id the store then
    holds the last item of the array with that id, and nothing for an id that
    no item of the array has, whatever was stored before. The list in memory
    becomes the array as it is, and each custom list is replaced only when
    the document has an array for it. When an entry of the array has no id,
    the import fails at that entry, after the store was cleared and the
    entries before it were written: the store then holds those entries and
    nothing of what was stored before, while the list in memory and the
    custom lists are what they were and the dialog reports an invalid file. *)
Theorem import_replaces_the_store
    (data : Backup.BackupData) (its good : list BucketItem) (s : App) :
  (Backup.items data = IsArray its ->
   let s' := handleFileChange (Document data) s in
   fst (importBackup (Document data) (localDB s)) = inr data /\
   (forall k, localDB s' !! k = last (filter (fun x => id x = k) its)) /\
   keyedById (localDB s') /\
   items s' = its /\
   customBuckets s' =
     match Backup.customBuckets data with IsArray l => l | NotArray => customBuckets s end /\
   customInterests s' =
     match Backup.customInterests data with IsArray l => l | NotArray => customInterests s end) /\
  (let s' := handleFileChange (MalformedItems good) s in
   fst (importBackup (MalformedItems good) (localDB s)) = inl DataError /\
   (forall k, localDB s' !! k = last (filter (fun x => id x = k) good)) /\
   items s' = items s /\
   customBuckets s' = customBuckets s /\
   customInterests s' = customInterests s /\
   importMsg s' = Some (error, "Invalid backup file.")).
Proof.
  split.
  - intros Hits s'.
    assert (Hdb : localDB s' =
                  fold_left (fun st item => <[id item := item]> st) its ∅).
    { unfold s', handleFileChange, importBackup, handleDataImport. rewrite Hits.
      cbv beta iota zeta. rewrite Hits.
      destruct (Backup.customBuckets data), (Backup.customInterests data); reflexivity. }
    assert (Hlook : forall k, localDB s' !! k = last (filter (fun x => id x = k) its)).
    { intros k. rewrite Hdb, put_all_lookup, lookup_empty.
      destruct (last _); reflexivity. }
    split; [unfold importBackup; rewrite Hits; reflexivity |].
    split; [exact Hlook |]. split.
    { intros k x Hx. rewrite Hlook in Hx.
      apply last_Some_elem_of, list_elem_of_filter in Hx. tauto. }
    unfold s', handleFileChange, importBackup, handleDataImport. rewrite Hits.
    cbv beta iota zeta. rewrite Hits.
    destruct (Backup.customBuckets data), (Backup.customInterests data);
      repeat split; reflexivity.
  - intros s'. unfold s', handleFileChange, importBackup. simpl.
    split; [reflexivity |]. split; [| repeat split; reflexivity].
    intros k. rewrite put_all_lookup, lookup_empty.
    destruct (last _); reflexivity.
Qed.

(** X14, on the scenario: a document that carries the park is imported over
    the database of the cafe. *)
Lemma import_replaces_witness :
  localDB (handleFileChange
             (Document (Backup.mkBackupData (IsArray [park]) NotArray NotArray 1700000200000))
             cafeApp) !! id cafe = None.
Proof.
  destruct (import_replaces_the_store
              (Backup.mkBackupData (IsArray [park]) NotArray NotArray 1700000200000)
              [park] [] cafeApp) as (H & _).
  destruct (H eq_refl) as (_ & Hk & _).
  rewrite Hk. rewrite filter_cons_False by discriminate. reflexivity.
Defined.

(** ** The tracker as a state machine *)

Lemma pollingEffect_timer prev s :
  pollingTimer s = prev ->
  pollingTimer (pollingEffect prev s) = isTracking (pollingEffect prev s).
Proof.
  intros Hp. unfold pollingEffect.
  destruct (Bool.eqb prev (isTracking s)) eqn:Heq.
  - apply Bool.eqb_prop in Heq. congruence.
  - simpl. destruct (isTracking s) eqn:Ht.
    + unfold updateLocation, getCurrentPosition. simpl.
      destruct (geolocationSupported s); simpl; rewrite ?Ht; simpl; rewrite ?Ht;
        reflexivity.
    + simpl. symmetry. exact Ht.
Qed.

Lemma callback_timer req r s : pollingTimer (callback req r s) = pollingTimer s.
Proof.
  destruct r as [pos | code]; simpl.
  - apply handleSuccess_fields.
  - rewrite handleError_unfold.
    destruct ((code =? 3) && negb (isLowAccuracy req)), (code =? 1); reflexivity.
Qed.

Lemma step_timer e s :
  pollingTimer s = isTracking s ->
  pollingTimer (step e s) = isTracking (step e s).
Proof.
  intros Hinv. destruct e as [| | n r | |]; simpl; try exact Hinv.
  - apply pollingEffect_timer. unfold toggleTracking.
    destruct (isTracking s); simpl; congruence.
  - destruct (pollingTimer s) eqn:Hp; [| congruence].
    apply pollingEffect_timer. unfold updateLocation, getCurrentPosition.
    destruct (geolocationSupported s); simpl; congruence.
  - destruct (pendingRequests s !! n) as [req |]; [| exact Hinv].
    apply pollingEffect_timer. rewrite callback_timer. exact Hinv.
Qed.

(** X15. The interval of the polling effect is set exactly while tracking is
    on: this holds when the component mounts and after every sequence of
    events (button, interval, answers of the location service, dismissal,
    permission answers). *)
Theorem interval_runs_exactly_while_tracking (es : list Event) (s : App) :
  pollingTimer s = isTracking s ->
  pollingTimer (run es s) = isTracking (run es s).
Proof.
  revert s. induction es as [| e es IH]; intros s Hinv; [exact Hinv |].
  simpl. apply IH, step_timer, Hinv.
Qed.

(** X15, on the scenario: tracking is switched on, the request is refused. *)
Lemma interval_witness :
  pollingTimer (run [ToggleTracking; Resolves 0 (PositionError 1); IntervalFires] cafeApp) =
  isTracking (run [ToggleTracking; Resolves 0 (PositionError 1); IntervalFires] cafeApp).
Proof.
  apply (interval_runs_exactly_while_tracking
           [ToggleTracking; Resolves 0 (PositionError 1); IntervalFires] cafeApp).
  reflexivity.
Defined.

Lemma step_stays_stopped e s :
  e <> ToggleTracking ->
  isTracking s = false -> pollingTimer s = false ->
  isTracking (step e s) = false /\ pollingTimer (step e s) = false /\
  (length (pendingRequests (step e s)) <= length (pendingRequests s))%nat.
Proof.
  intros Hne Ht Hp.
  destruct e as [| | n [pos | code] | |]; simpl; try contradiction.
  - (* the interval is not set *)
    rewrite Hp. repeat split; assumption || lia.
  - destruct (pendingRequests s !! n) as [req |] eqn:Hreq;
      [| repeat split; assumption || lia].
    pose proof (resolve_position s n req pos Hreq) as Hstep. simpl in Hstep.
    rewrite Hreq in Hstep. rewrite Hstep.
    destruct (handleSuccess_fields pos
                (set_pendingRequests (delete n (pendingRequests s)) s))
      as (_ & _ & -> & -> & -> & _).
    simpl. rewrite length_delete by eauto.
    repeat split; assumption || lia.
  - destruct (pendingRequests s !! n) as [req |] eqn:Hreq;
      [| repeat split; assumption || lia].
    unfold dispatch. simpl. rewrite handleError_unfold.
    apply lookup_lt_Some in Hreq as Hlt.
    assert (Hlen : length (delete n (pendingRequests s)) =
                   (length (pendingRequests s) - 1)%nat)
      by (apply length_delete; eauto).
    destruct ((code =? 3) && negb (isLowAccuracy req)).
    + rewrite pollingEffect_same by (simpl; congruence). simpl.
      rewrite length_app, Hlen. simpl. repeat split; assumption || lia.
    + rewrite pollingEffect_same by (destruct (code =? 1); simpl; congruence).
      destruct (code =? 1); simpl; rewrite Hlen; repeat split; assumption || lia.
  - repeat split; assumption || lia.
  - repeat split; assumption || lia.
Qed.

(** X16. A stopped tracker is not started by anything but the button: as
    long as the button is not pressed, tracking and the interval stay off
    whatever answers of earlier requests come in, and the number of
    outstanding requests does not grow. *)
Theorem stopped_tracker_stays_stopped (es : list Event) (s : App) :
  Forall (fun e => e <> ToggleTracking) es ->
  isTracking s = false -> pollingTimer s = false ->
  isTracking (run es s) = false /\
  pollingTimer (run es s) = false /\
  (length (pendingRequests (run es s)) <= length (pendingRequests s))%nat.
Proof.
  revert s. induction es as [| e es IH]; intros s Hes Ht Hp.
  - simpl. repeat split; assumption || lia.
  - apply Forall_cons in Hes as [He Hes]. simpl.
    destruct (step_stays_stopped e s He Ht Hp) as (Ht' & Hp' & Hl').
    destruct (IH (step e s) Hes Ht' Hp') as (H1 & H2 & H3).
    repeat split; assumption || lia.
Qed.

(** X16, on the scenario: tracking is switched on and off; the interval has
    no effect and the request of the start times out after the stop. *)
Lemma stopped_tracker_witness :
  isTracking (run [IntervalFires; Resolves 0 (PositionError 3); Resolves 0 (PositionError 3)]
                (run [ToggleTracking; ToggleTracking] cafeApp)) = false.
Proof.
  apply (stopped_tracker_stays_stopped
           [IntervalFires; Resolves 0 (PositionError 3); Resolves 0 (PositionError 3)]
           (run [ToggleTracking; ToggleTracking] cafeApp)).
  - repeat constructor; discriminate.
  - reflexivity.
  - reflexivity.
Defined.

(** X17. Where the browser has no geolocation service, pressing the button
    does not start tracking: tracking and the interval are off afterwards,
    no request is outstanding that was not before, and the error slot says
    that geolocation is not supported. *)
Theorem tracking_needs_geolocation (s : App) :
  geolocationSupported s = false -> isTracking s = false ->
  let s' := step ToggleTracking s in
  isTracking s' = false /\ pollingTimer s' = false /\
  pendingRequests s' = pendingRequests s /\
  geoError s' = Some "Geolocation is not supported by your browser" /\
  items s' = items s.
Proof.
  intros Hgeo Ht. simpl. unfold dispatch, toggleTracking, pollingEffect, updateLocation.
  rewrite Ht. simpl. rewrite Hgeo. simpl. repeat split; reflexivity.
Qed.

(** X17, on the scenario. *)
Lemma tracking_needs_geolocation_witness :
  isTracking (step ToggleTracking noGeoApp) = false /\
  geoError (step ToggleTracking noGeoApp) =
    Some "Geolocation is not supported by your browser".
Proof.
  destruct (tracking_needs_geolocation noGeoApp eq_refl eq_refl)
    as (H1 & _ & _ & H2 & _).
  split; assumption.
Defined.

(** ** Loading and displaying the list *)

#[local] Instance newerFirst_total : Total newerFirst.
Proof. intros a b. unfold newerFirst. lia. Qed.

#[local] Instance newerFirst_trans : Transitive newerFirst.
Proof. intros a b c. unfold newerFirst. lia. Qed.

#[local] Instance displayOrder_total c o l : Total (displayOrder c o l).
Proof.
  intros a b. unfold displayOrder. destruct o, l, c; try lia.
  all: destruct (Rle_dec (Geo.calculateDistance g (targetLocation a))
                   (Geo.calculateDistance g (targetLocation b))); [left | right]; lra.
Qed.

#[local] Instance displayOrder_trans c o l : Transitive (displayOrder c o l).
Proof.
  intros x y z. unfold displayOrder. destruct o, l, c; try lia; intros; lra.
Qed.

Lemma loadItems_local s :
  user s = None ->
  loadItems s =
  set_items (merge_sort newerFirst (LocalDatabase.getAllItems (localDB s))) s.
Proof. intros Hu. unfold loadItems. rewrite Hu. reflexivity. Qed.

Lemma loaded_elem (db : gmap string BucketItem) x :
  keyedById db ->
  (x ∈ merge_sort newerFirst (LocalDatabase.getAllItems db) <-> db !! id x = Some x).
Proof.
  intros Hk. rewrite merge_sort_Permutation. apply getAllItems_elem, Hk.
Qed.

(** X18. In local mode [loadItems] puts on the list exactly the items of the
    database, each once, newest first; afterwards memory and database are in
    step, and the database is as it was. *)
Theorem loadItems_lists_the_database_newest_first (s : App) :
  user s = None -> keyedById (localDB s) ->
  let s' := loadItems s in
  StronglySorted newerFirst (items s') /\
  NoDup (id <$> items s') /\
  (forall x, x ∈ items s' <-> localDB s !! id x = Some x) /\
  localDB s' = localDB s /\
  inStep s'.
Proof.
  intros Hu Hk s'. unfold s'. rewrite (loadItems_local s Hu). simpl.
  assert (Hnd : NoDup (id <$> merge_sort newerFirst (LocalDatabase.getAllItems (localDB s)))).
  { rewrite merge_sort_Permutation. apply getAllItems_NoDup, Hk. }
  split; [apply StronglySorted_merge_sort; apply _ |].
  split; [exact Hnd |].
  split; [intros x; apply loaded_elem, Hk |].
  split; [reflexivity |].
  unfold inStep. simpl. split; [exact Hu |]. split; [exact Hnd |]. split.
  - intros x Hx. exists x. split; [| reflexivity]. apply loaded_elem; assumption.
  - intros k y Hy. rewrite <- (Hk k y Hy).
    apply list_elem_of_fmap_2, loaded_elem; [exact Hk |].
    rewrite (Hk k y Hy). exact Hy.
Qed.

(** X18, on the scenario. *)
Lemma loadItems_witness : inStep (loadItems cafeApp).
Proof.
  apply (loadItems_lists_the_database_newest_first cafeApp eq_refl).
  apply keyedById_saveItem, keyedById_empty.
Defined.



(** ** Signing out *)


